(** * Verification of job-scanner: classifier, scrape pipeline and job store

    A shallow embedding of the Python sources
    - [src/utils/helpers.py]        (days_since_posted, normalize_location,
                                     is_eu_location, is_uae_location)
    - [src/scrapers/base_scraper.py] (Job, BaseScraper.filter_jobs, scrape)
    - [src/scrapers/linkedin_scraper.py], [src/scrapers/google_scraper.py]
                                    (the relative-date parsers)
    - [src/database/job_store.py]   (JobStore)

    Python [str] values are lists of Unicode code points.  The wall-clock
    reading of a [datetime] is an integer counting microseconds since
    0001-01-01 00:00:00 (so [datetime.min] is 0); the job objects of the
    scrapers also record whether a [datetime] is aware, with its UTC offset
    ([Scraper.datetime]).  A [timedelta] is a number of microseconds. *)

From Stdlib Require Import List ZArith NArith String Ascii Bool Lia Permutation.
Import ListNotations.

(* ------------------------------------------------------------------ *)
(** ** Python strings *)

Module PyStr.

Definition char := N.
Definition str := list char.

(** A Rocq (ASCII) string literal as a Python [str]. *)
Fixpoint u (s : string) : str :=
  match s with
  | EmptyString => []
  | String a s' => N_of_ascii a :: u s'
  end.

(** [str.lower] on one code point: the Basic Latin and Latin-1 Supplement
    case mapping of Python (A-Z and U+00C0..U+00DE except U+00D7 go to
    their lower case); other code points are left as they are. *)
Definition py_lower_char (c : char) : char :=
  if (65 <=? c)%N && (c <=? 90)%N then (c + 32)%N
  else if (192 <=? c)%N && (c <=? 222)%N && negb (c =? 215)%N then (c + 32)%N
  else c.

Definition lower (s : str) : str := map py_lower_char s.

(** [str.isspace] on one code point (the separators of [str.split()] and
    of [\s] in a [str] pattern). *)
Definition py_isspace (c : char) : bool :=
  ((9 <=? c)%N && (c <=? 13)%N) || ((28 <=? c)%N && (c <=? 32)%N)
  || (c =? 133)%N || (c =? 160)%N || (c =? 5760)%N
  || ((8192 <=? c)%N && (c <=? 8202)%N)
  || (c =? 8232)%N || (c =? 8233)%N || (c =? 8239)%N || (c =? 8287)%N
  || (c =? 12288)%N.

Fixpoint starts_with (p s : str) : bool :=
  match p, s with
  | [], _ => true
  | c :: p', d :: s' => (c =? d)%N && starts_with p' s'
  | _ :: _, [] => false
  end.

(** [sub in s] *)
Fixpoint contains (sub s : str) : bool :=
  starts_with sub s ||
  match s with
  | [] => false
  | _ :: s' => contains sub s'
  end.

(** [s.split()]: maximal runs of non-space code points; [cur] holds the
    current word, reversed. *)
Fixpoint split_aux (s : str) (cur : str) : list str :=
  match s with
  | [] => match cur with [] => [] | _ => [rev cur] end
  | c :: s' =>
      if py_isspace c then
        match cur with
        | [] => split_aux s' []
        | _ => rev cur :: split_aux s' []
        end
      else split_aux s' (c :: cur)
  end.

Definition py_split (s : str) : list str := split_aux s [].

(** [sep.join(words)] *)
Fixpoint join (sep : str) (ws : list str) : str :=
  match ws with
  | [] => []
  | [w] => w
  | w :: ws' => w ++ sep ++ join sep ws'
  end.

(** [s.replace(old, new)] for a non-empty [old]: left to right,
    non-overlapping.  Each step consumes at least one code point, so
    [length s + 1] steps suffice. *)
Fixpoint replace_fuel (fuel : nat) (old new s : str) : str :=
  match fuel with
  | O => s
  | S f =>
      match s with
      | [] => []
      | c :: s' =>
          if starts_with old s then new ++ replace_fuel f old new (skipn (List.length old) s)
          else c :: replace_fuel f old new s'
      end
  end.

Definition py_replace (old new s : str) : str :=
  replace_fuel (S (List.length s)) old new s.

End PyStr.

Import PyStr.

(* ------------------------------------------------------------------ *)
(** ** helpers.py: location classifier *)

Module Helpers.

(** The [mappings] dict of [normalize_location], in insertion order. *)
Definition mappings : list (str * str) :=
  [ (u "United Arab Emirates", u "UAE");
    (u "U.A.E.", u "UAE");
    (u "Deutschland", u "Germany");
    (u "Espa" ++ [241%N] ++ u "a", u "Spain");   (* "España" *)
    (u "Polska", u "Poland");
    (u "Nederland", u "Netherlands");
    ([201%N] ++ u "ire", u "Ireland") ].          (* "Éire" *)

Definition normalize_location (location : str) : str :=
  match location with
  | [] => []
  | _ =>
      let location := join (u " ") (py_split location) in
      fold_left (fun l '(old, new) => py_replace old new l) mappings location
  end.

Definition eu_countries : list str :=
  map u
  [ "Austria"; "Belgium"; "Bulgaria"; "Croatia"; "Cyprus";
    "Czech Republic"; "Czechia"; "Denmark"; "Estonia"; "Finland";
    "France"; "Germany"; "Greece"; "Hungary"; "Ireland";
    "Italy"; "Latvia"; "Lithuania"; "Luxembourg"; "Malta";
    "Netherlands"; "Poland"; "Portugal"; "Romania"; "Slovakia";
    "Slovenia"; "Spain"; "Sweden" ]%string.

Definition is_eu_location (location : str) : bool :=
  let location_lower := lower location in
  existsb (fun country => contains (lower country) location_lower) eu_countries.

Definition uae_indicators : list str :=
  map u ["uae"; "dubai"; "abu dhabi"; "sharjah"; "united arab emirates"]%string.

Definition is_uae_location (location : str) : bool :=
  let location_lower := lower location in
  existsb (fun indicator => contains indicator location_lower) uae_indicators.

End Helpers.

Import Helpers.

(* ------------------------------------------------------------------ *)
(** ** base_scraper.py: Job, filter_jobs, scrape *)

Module Scraper.

Local Open Scope Z_scope.

(** A [datetime]: its wall-clock reading ([dt_wall], microseconds since
    0001-01-01 00:00:00) and, for an aware datetime, its UTC offset
    ([dt_offset = Some off], in microseconds); [dt_offset = None] is a
    naive datetime.  [LinkedInScraper.parse_job] makes an aware one from an
    ISO string that ends in "Z" or carries an offset. *)
Record datetime := mkDatetime {
  dt_wall : Z;
  dt_offset : option Z
}.

Definition naive (us : Z) : datetime := mkDatetime us None.


(** [@dataclass class Job].  [scraped_at] is [datetime.now()], naive. *)
Record Job := mkJob {
  id : str;
  title : str;
  company : str;
  location : str;
  description : str;
  url : str;
  posted_date : option datetime;
  requirements : list str;
  keywords : list str;
  is_eu : bool;
  is_uae : bool;
  scraped_at : Z
}.

(** Job objects live in a heap: the scraper passes references, and
    [filter_jobs] assigns the fields of the very objects its caller holds.
    [tick] counts the calls of [datetime.now()] so far. *)
Record World := mkWorld {
  heap : nat -> Job;
  tick : nat
}.

Definition heap_set (h : nat -> Job) (l : nat) (j : Job) : nat -> Job :=
  fun l' => if Nat.eqb l' l then j else h l'.

(** [job.is_eu = ...; job.is_uae = ...] *)
Definition set_flags (j : Job) (eu uae : bool) : Job :=
  {| id := id j; title := title j; company := company j; location := location j;
     description := description j; url := url j; posted_date := posted_date j;
     requirements := requirements j; keywords := keywords j;
     is_eu := eu; is_uae := uae; scraped_at := scraped_at j |}.

(** The part of [self.config] read by [filter_jobs]. *)
Record Config := mkConfig {
  job_titles : list str;
  max_age_days : Z
}.

(** One day as a [timedelta], in microseconds. *)
Definition DAY : Z := 86400 * 1000000.

(** Python exceptions: the three built-in [BaseException] subclasses that
    do not derive from [Exception], and the [Exception] subclasses, named. *)
Inductive exn :=
| KeyboardInterrupt
| SystemExit
| GeneratorExit
| Exc (name : str).

Definition is_exception (e : exn) : bool :=
  match e with Exc _ => true | _ => false end.

Definition TypeError : exn := Exc (u "TypeError").

(** The return value of [days_since_posted]: an [int], or [float('inf')]. *)
Inductive PyNum := PyInt (z : Z) | PyInf.

(** [days_since_posted(posted_date)] where [datetime.now()] reads [now]
    (a naive datetime): [(now - posted_date).days], i.e. the floor of the
    difference in days (a [timedelta] is normalised so that
    [0 <= seconds < 86400]); subtracting an aware datetime from a naive
    one raises [TypeError] (result [inl]). *)
Definition days_since_posted (now : Z) (posted_date : option datetime) : exn + PyNum :=
  match posted_date with
  | None => inr PyInf
  | Some (mkDatetime p None) => inr (PyInt ((now - p) / DAY))
  | Some (mkDatetime _ (Some _)) => inl TypeError
  end.

(** [age > self.max_age_days] *)
Definition py_gt (a : PyNum) (b : Z) : bool :=
  match a with
  | PyInf => true
  | PyInt z => b <? z
  end.

(** [any(title.lower() in job.title.lower() for title in self.job_titles)] *)
Definition title_match (job_titles : list str) (job_title : str) : bool :=
  existsb (fun t => contains (lower t) (lower job_title)) job_titles.

(** The sort key [(not j.is_eu, not j.is_uae)] and Python's [<] on
    pairs of booleans ([False < True], lexicographic). *)
Definition sort_key (j : Job) : bool * bool := (negb (is_eu j), negb (is_uae j)).

Definition bool_lt (a b : bool) : bool := negb a && b.

Definition tuple_lt (x y : bool * bool) : bool :=
  bool_lt (fst x) (fst y) || (Bool.eqb (fst x) (fst y) && bool_lt (snd x) (snd y)).

(** [list.sort(key=...)] is a stable sort; every stable sort yields the same
    list, here computed by insertion: [x] goes before the first element
    whose key is not smaller than its own. *)
Fixpoint insert_by {A : Type} (key : A -> bool * bool) (x : A) (l : list A) : list A :=
  match l with
  | [] => [x]
  | y :: l' => if tuple_lt (key y) (key x) then y :: insert_by key x l' else x :: l
  end.

Fixpoint sort_by {A : Type} (key : A -> bool * bool) (l : list A) : list A :=
  match l with
  | [] => []
  | x :: l' => insert_by key x (sort_by key l')
  end.

(** A computation on the world that returns a value or raises. *)
Inductive Res (A : Type) :=
| Ok (w : World) (v : A)
| Raise (w : World) (e : exn).
Arguments Ok {A} w v.
Arguments Raise {A} w e.

Definition res_world {A : Type} (r : Res A) : World :=
  match r with Ok w _ => w | Raise w _ => w end.

Definition res_value {A : Type} (r : Res A) : option A :=
  match r with Ok _ v => Some v | Raise _ _ => None end.


Section Pipeline.

(** [clock k] is what the [k]-th call of [datetime.now()] returns. *)
Variable clock : nat -> Z.

(** [if job.posted_date: age = days_since_posted(job.posted_date);
    if age > self.max_age_days: continue]: whether the job is too old (a
    [datetime] is always truthy); [days_since_posted] reads the clock
    before it subtracts. *)
Definition age_check (cfg : Config) (w : World) (job : Job) : Res bool :=
  match posted_date job with
  | Some p =>
      let w1 := mkWorld (heap w) (S (tick w)) in
      match days_since_posted (clock (tick w)) (Some p) with
      | inl e => Raise w1 e
      | inr age => Ok w1 (py_gt age (max_age_days cfg))
      end
  | None => Ok w false
  end.

(** The [for job in jobs] loop of [filter_jobs]; [filtered] is the list
    built so far. *)
Fixpoint filter_loop (cfg : Config) (w : World) (jobs : list nat) (filtered : list nat)
  : Res (list nat) :=
  match jobs with
  | [] => Ok w filtered
  | l :: rest =>
      let job := heap w l in
      if negb (title_match (job_titles cfg) (title job)) then
        filter_loop cfg w rest filtered
      else
        match age_check cfg w job with
        | Raise w1 e => Raise w1 e
        | Ok w1 true => filter_loop cfg w1 rest filtered
        | Ok w1 false =>
            let normalized_location := normalize_location (location job) in
            let job' := set_flags job (is_eu_location normalized_location)
                                      (is_uae_location normalized_location) in
            filter_loop cfg (mkWorld (heap_set (heap w1) l job') (tick w1)) rest
                        (filtered ++ [l])
        end
  end.

Definition filter_jobs (cfg : Config) (w : World) (jobs : list nat) : Res (list nat) :=
  match filter_loop cfg w jobs [] with
  | Ok w' filtered => Ok w' (sort_by (fun l => sort_key (heap w' l)) filtered)
  | Raise w' e => Raise w' e
  end.

(** A concrete scraper: its raw-record type and its two abstract methods.
    Adapters read and write the world (browser, heap, clock) freely. *)
Record Adapter := mkAdapter {
  Raw : Type;
  fetch_jobs : World -> Res (list Raw);
  parse_job : Raw -> World -> Res (option nat)
}.

(** [for raw_job in raw_jobs: job = self.parse_job(raw_job); if job: ...] *)
Fixpoint parse_all (a : Adapter) (raws : list (Raw a)) (w : World) (jobs : list nat)
  : Res (list nat) :=
  match raws with
  | [] => Ok w jobs
  | r :: rs =>
      match parse_job a r w with
      | Ok w1 (Some l) => parse_all a rs w1 (jobs ++ [l])
      | Ok w1 None => parse_all a rs w1 jobs
      | Raise w1 e => Raise w1 e
      end
  end.

(** The body of the [try] block of [scrape] (the logging calls are not
    modelled). *)
Definition scrape_body (a : Adapter) (cfg : Config) (w : World) : Res (list nat) :=
  match fetch_jobs a w with
  | Raise w1 e => Raise w1 e
  | Ok w1 raw_jobs =>
      match parse_all a raw_jobs w1 [] with
      | Raise w2 e => Raise w2 e
      | Ok w2 jobs => filter_jobs cfg w2 jobs
      end
  end.

(** [try: ... except Exception as e: ...; return []] *)
Definition scrape (a : Adapter) (cfg : Config) (w : World) : Res (list nat) :=
  match scrape_body a cfg w with
  | Ok w' v => Ok w' v
  | Raise w' e => if is_exception e then Ok w' [] else Raise w' e
  end.

End Pipeline.

End Scraper.

(* ------------------------------------------------------------------ *)
(** ** The relative-date parsers of the LinkedIn and Google adapters *)

Module DateParse.

Local Open Scope Z_scope.

Definition HOUR : Z := 3600 * 1000000.
Definition DAY : Z := Scraper.DAY.
Definition WEEK : Z := 7 * DAY.

(** The first code points of the runs of decimal digits of Unicode 14.0
    (general category Nd): each run holds the ten digits 0 to 9 in order.
    [\d] in a [str] pattern matches exactly these code points, and [int()]
    reads each one as its digit. *)
Definition nd_zeros : list N :=
  [48; 1632; 1776; 1984; 2406; 2534; 2662; 2790; 2918; 3046; 3174; 3302;
   3430; 3558; 3664; 3792; 3872; 4160; 4240; 6112; 6160; 6470; 6608; 6784;
   6800; 6992; 7088; 7232; 7248; 42528; 43216; 43264; 43472; 43504; 43600;
   44016; 65296; 66720; 68912; 69734; 69872; 69942; 70096; 70384; 70736;
   70864; 71248; 71360; 71472; 71904; 72016; 72784; 73040; 73120; 92768;
   92864; 93008; 120782; 120792; 120802; 120812; 120822; 123200; 123632;
   125264; 130032]%N.

Definition digit_zero (c : char) : option N :=
  find (fun z => (z <=? c)%N && (c <? z + 10)%N) nd_zeros.

Definition is_digit (c : char) : bool :=
  match digit_zero c with Some _ => true | None => false end.

Definition digit_value (c : char) : Z :=
  match digit_zero c with Some z => Z.of_N (c - z) | None => 0 end.

Fixpoint take_while (p : char -> bool) (s : str) : str :=
  match s with
  | [] => []
  | c :: s' => if p c then c :: take_while p s' else []
  end.

(** [n; n-1; ...; 0]: the repetition counts a greedy quantifier tries, in
    the order the backtracking matcher tries them. *)
Fixpoint countdown (n : nat) : list nat :=
  match n with
  | O => [O]
  | S n' => n :: countdown n'
  end.

Fixpoint first_some {A B : Type} (f : A -> option B) (l : list A) : option B :=
  match l with
  | [] => None
  | x :: l' => match f x with Some v => Some v | None => first_some f l' end
  end.

(** The part [\s*(u1|u2|...)s?\s*ago] of the pattern [(\d+)\s*(u1|u2|...)s?\s*ago],
    anchored at the start of [s1], with Python's backtracking order
    (greedy quantifiers try the longest repetition first, alternatives are
    tried left to right).  Returns [group(2)]. *)
Definition after_digits (units : list str) (s1 : str) : option str :=
  first_some (fun m =>
    let s2 := skipn m s1 in
    first_some (fun unit =>
      if starts_with unit s2 then
        let s3 := skipn (List.length unit) s2 in
        first_some (fun o =>
          if Nat.eqb o 1 && negb (starts_with (u "s") s3) then None
          else
            let s4 := skipn o s3 in
            first_some (fun m2 =>
              if starts_with (u "ago") (skipn m2 s4) then Some unit else None)
              (countdown (List.length (take_while py_isspace s4))))
          [1%nat; 0%nat]
      else None) units)
    (countdown (List.length (take_while py_isspace s1))).

(** The whole pattern anchored at the start of [s]: [\d+] tries the
    longest run of digits first.  Returns [(group(1), group(2))]. *)
Definition match_ago (units : list str) (s : str) : option (str * str) :=
  let ds := take_while is_digit s in
  first_some (fun k =>
    match after_digits units (skipn k s) with
    | Some unit => Some (firstn k s, unit)
    | None => None
    end)
    (List.filter (fun k => Nat.leb 1 k) (countdown (List.length ds))).

(** [re.search(pattern, s)]: the leftmost starting position that matches. *)
Fixpoint search (units : list str) (s : str) : option (str * str) :=
  match match_ago units s with
  | Some r => Some r
  | None => match s with [] => None | _ :: s' => search units s' end
  end.

(** [int(match.group(1))] on a run of decimal digits. *)
Definition digits_value (ds : str) : Z :=
  fold_left (fun acc d => acc * 10 + digit_value d) ds 0.

(** [datetime.now() - timedelta(...)]: [OverflowError] (caught by the
    bare [except:], giving [None]) when the result is before
    [datetime.min]. *)
Definition dt_sub (now d : Z) : option Z :=
  if now - d <? 0 then None else Some (now - d).

Definition str_eqb (a b : str) : bool := if list_eq_dec N.eq_dec a b then true else false.

(** [LinkedInScraper._parse_relative_date], [datetime.now()] reading [now]. *)
Definition linkedin_parse_relative_date (now : Z) (date_str : str) : option Z :=
  let date_lower := lower date_str in
  if contains (u "just now") date_lower || contains (u "today") date_lower then Some now
  else
    match search (map u ["day"; "week"; "month"; "hour"]%string) date_lower with
    | Some (g1, unit) =>
        let num := digits_value g1 in
        if str_eqb unit (u "hour") then dt_sub now (num * HOUR)
        else if str_eqb unit (u "day") then dt_sub now (num * DAY)
        else if str_eqb unit (u "week") then dt_sub now (num * WEEK)
        else if str_eqb unit (u "month") then dt_sub now (num * 30 * DAY)
        else None
    | None => None
    end.

(** [GoogleScraper._parse_date], [datetime.now()] reading [now]. *)
Definition google_parse_date (now : Z) (date_str : str) : option Z :=
  let date_lower := lower date_str in
  if contains (u "today") date_lower || contains (u "just") date_lower then Some now
  else if contains (u "yesterday") date_lower then dt_sub now DAY
  else
    match search (map u ["day"; "week"; "month"]%string) date_lower with
    | Some (g1, unit) =>
        let num := digits_value g1 in
        if str_eqb unit (u "day") then dt_sub now (num * DAY)
        else if str_eqb unit (u "week") then dt_sub now (num * WEEK)
        else if str_eqb unit (u "month") then dt_sub now (num * 30 * DAY)
        else None
    | None => None
    end.

End DateParse.

(* ------------------------------------------------------------------ *)
(** ** job_store.py: JobStore *)

Module JobStore.

Local Open Scope Z_scope.

(** A row of the [jobs] table ([class JobModel]); the JSON-encoded
    [requirements] and [keywords] columns are kept as the lists they
    encode ([json.dumps] is injective). *)
Record JobModel := mkJobModel {
  id : str;
  title : str;
  company : str;
  location : str;
  description : str;
  url : str;
  posted_date : option Z;
  requirements : list str;
  keywords : list str;
  is_eu : bool;
  is_uae : bool;
  scraped_at : option Z;
  notified : bool;
  notified_at : option Z;
  resume_generated : bool;
  resume_path : option str
}.

(** A datetime-valued entry of a job dict: an ISO string (as written by
    [Job.to_dict]), a [datetime] (its wall-clock reading, which is what the
    column stores), or [None]. *)
Inductive DictDate := DStr (s : str) | DDate (d : Z) | DNone.

(** A job dict; [None] in a field means the key is missing. *)
Record JobData := mkJobData {
  jd_id : option str;
  jd_title : option str;
  jd_company : option str;
  jd_location : option str;
  jd_description : option str;
  jd_url : option str;
  jd_posted_date : option DictDate;
  jd_requirements : option (list str);
  jd_keywords : option (list str);
  jd_is_eu : option bool;
  jd_is_uae : option bool;
  jd_scraped_at : option DictDate
}.

(** The committed rows of the table, in insertion order. *)
Definition Table := list JobModel.

(** The outcome of a store method: the committed table afterwards, and a
    value or a raised exception. *)
Inductive SRes (A : Type) :=
| SOk (t : Table) (v : A)
| SRaise (t : Table) (e : Scraper.exn).
Arguments SOk {A} t v.
Arguments SRaise {A} t e.

Definition str_eqb (a b : str) : bool := if list_eq_dec N.eq_dec a b then true else false.

(** [stats] as returned by [get_stats]. *)
Record Stats := mkStats {
  total_jobs : nat;
  eu_jobs : nat;
  uae_jobs : nat;
  notified_count : nat;
  pending : nat;
  resumes_generated : nat
}.

Section Store.

(** [datetime.fromisoformat], giving the wall-clock reading of the parsed
    datetime (the [DateTime] column of SQLite stores the wall-clock fields
    and drops any [tzinfo]): [None] when it raises [ValueError]. *)
Variable fromisoformat : str -> option Z.

(** The database's verdict on [session.commit()] of the change from the
    committed table [old] to [new]: [None] when the transaction commits,
    [Some e] when the commit raises [e] (the transaction is then not
    applied). *)
Variable commit_fault : Table -> Table -> option Scraper.exn.

(** [session.query(JobModel).filter_by(id=job_id).first()] *)
Definition query_by_id (t : Table) (job_id : str) : option JobModel :=
  find (fun r => str_eqb (id r) job_id) t.

(** [JobStore.add_job(job_data)]; [datetime.now()] reads [now] (the
    argument of [job_data.get('scraped_at', datetime.now())] and the
    [default=datetime.now] column defaults applied at the flush are taken
    to read the same instant).  The ORM leaves an attribute that is [None]
    out of the INSERT, so a column default fires for it: an explicit
    [None] for [scraped_at] stores [now], like a missing key.  Every
    failure inside the [try] block either happens before the commit or is
    a failing commit; [except Exception: session.rollback(); raise e]
    discards the pending insert and re-raises, and any other exception
    propagates as it is, so the committed table is the one before the call. *)
Definition add_job (now : Z) (job_data : JobData) (t : Table) : SRes bool :=
  match jd_id job_data with
  | None => SRaise t (Scraper.Exc (u "KeyError"))
  | Some job_id =>
      match query_by_id t job_id with
      | Some _ => SOk t false
      | None =>
          let posted_date :=
            match jd_posted_date job_data with
            | None | Some DNone => None
            | Some (DDate d) => Some d
            | Some (DStr s) => fromisoformat s
            end in
          let scraped_at :=
            match jd_scraped_at job_data with
            | None | Some DNone => Some now
            | Some (DDate d) => Some d
            | Some (DStr s) =>
                match fromisoformat s with Some d => Some d | None => Some now end
            end in
          match jd_title job_data, jd_company job_data with
          | Some job_title, Some job_company =>
              let job := {|
                id := job_id; title := job_title; company := job_company;
                location := match jd_location job_data with Some l => l | None => [] end;
                description := match jd_description job_data with Some d => d | None => [] end;
                url := match jd_url job_data with Some d => d | None => [] end;
                posted_date := posted_date;
                requirements := match jd_requirements job_data with Some r => r | None => [] end;
                keywords := match jd_keywords job_data with Some k => k | None => [] end;
                is_eu := match jd_is_eu job_data with Some b => b | None => false end;
                is_uae := match jd_is_uae job_data with Some b => b | None => false end;
                scraped_at := scraped_at;
                (* column defaults *)
                notified := false; notified_at := Some now;
                resume_generated := false; resume_path := None |} in
              let t' := t ++ [job] in
              match commit_fault t t' with
              | None => SOk t' true
              | Some e => SRaise t e
              end
          | _, _ => SRaise t (Scraper.Exc (u "KeyError"))
          end
      end
  end.

(** [JobStore.add_jobs(jobs)] *)
Fixpoint add_jobs_from (now : Z) (jobs : list JobData) (added : nat) (t : Table) : SRes nat :=
  match jobs with
  | [] => SOk t added
  | job :: rest =>
      match add_job now job t with
      | SOk t' true => add_jobs_from now rest (S added) t'
      | SOk t' false => add_jobs_from now rest added t'
      | SRaise t' e => SRaise t' e
      end
  end.

Definition add_jobs (now : Z) (jobs : list JobData) (t : Table) : SRes nat :=
  add_jobs_from now jobs O t.

(** [JobStore.get_unnotified_jobs()] *)
Definition get_unnotified_jobs (t : Table) : list JobModel :=
  List.filter (fun r => negb (notified r)) t.

Definition set_notified (now : Z) (r : JobModel) : JobModel :=
  {| id := id r; title := title r; company := company r; location := location r;
     description := description r; url := url r; posted_date := posted_date r;
     requirements := requirements r; keywords := keywords r;
     is_eu := is_eu r; is_uae := is_uae r; scraped_at := scraped_at r;
     notified := true; notified_at := Some now;
     resume_generated := resume_generated r; resume_path := resume_path r |}.

(** [JobStore.mark_as_notified(job_ids)]: one bulk [UPDATE ... WHERE id IN
    job_ids], then commit. *)
Definition mark_as_notified (now : Z) (job_ids : list str) (t : Table) : SRes unit :=
  let t' := map (fun r => if existsb (str_eqb (id r)) job_ids then set_notified now r else r) t in
  match commit_fault t t' with
  | None => SOk t' tt
  | Some e => SRaise t e
  end.

Definition set_resume (path : str) (r : JobModel) : JobModel :=
  {| id := id r; title := title r; company := company r; location := location r;
     description := description r; url := url r; posted_date := posted_date r;
     requirements := requirements r; keywords := keywords r;
     is_eu := is_eu r; is_uae := is_uae r; scraped_at := scraped_at r;
     notified := notified r; notified_at := notified_at r;
     resume_generated := true; resume_path := Some path |}.

(** Update the first row with the given id ([.first()] of the query). *)
Fixpoint update_first (job_id : str) (f : JobModel -> JobModel) (t : Table) : Table :=
  match t with
  | [] => []
  | r :: t' => if str_eqb (id r) job_id then f r :: t' else r :: update_first job_id f t'
  end.

(** [JobStore.mark_resume_generated(job_id, resume_path)] *)
Definition mark_resume_generated (job_id : str) (resume_path : str) (t : Table) : SRes unit :=
  match query_by_id t job_id with
  | None => SOk t tt
  | Some _ =>
      let t' := update_first job_id (set_resume resume_path) t in
      match commit_fault t t' with
      | None => SOk t' tt
      | Some e => SRaise t e
      end
  end.

Definition count (p : JobModel -> bool) (t : Table) : nat := List.length (List.filter p t).

(** [JobStore.get_stats()] *)
Definition get_stats (t : Table) : Stats :=
  {| total_jobs := List.length t;
     eu_jobs := count is_eu t;
     uae_jobs := count is_uae t;
     notified_count := count notified t;
     pending := count (fun r => negb (notified r)) t;
     resumes_generated := count resume_generated t |}.

(** [JobStore.get_job_by_id(job_id)] *)
Definition get_job_by_id (t : Table) (job_id : str) : option JobModel :=
  query_by_id t job_id.

(** [JobStore.job_exists(job_id)] *)
Definition job_exists (t : Table) (job_id : str) : bool :=
  match query_by_id t job_id with Some _ => true | None => false end.

(** [JobStore.get_eu_jobs(unnotified_only)] *)
Definition get_eu_jobs (t : Table) (unnotified_only : bool) : list JobModel :=
  let query := List.filter (fun r => is_eu r) t in
  if unnotified_only then List.filter (fun r => negb (notified r)) query else query.

(** [JobStore.get_uae_jobs(unnotified_only)] *)
Definition get_uae_jobs (t : Table) (unnotified_only : bool) : list JobModel :=
  let query := List.filter (fun r => is_uae r) t in
  if unnotified_only then List.filter (fun r => negb (notified r)) query else query.

End Store.

End JobStore.

(* ------------------------------------------------------------------ *)
(** ** [main.py]: from the scrapers to the store *)

Module Pipeline.

Import JobStore.

Local Open Scope Z_scope.

(** [Job.to_dict()]; [isoformat] is [datetime.isoformat].  A [datetime] is
    always truthy, so [posted_date] is encoded whenever it is set;
    [scraped_at] is naive. *)
Definition to_dict (isoformat : Scraper.datetime -> str) (j : Scraper.Job) : JobData :=
  {| jd_id := Some (Scraper.id j);
     jd_title := Some (Scraper.title j);
     jd_company := Some (Scraper.company j);
     jd_location := Some (Scraper.location j);
     jd_description := Some (Scraper.description j);
     jd_url := Some (Scraper.url j);
     jd_posted_date := Some (match Scraper.posted_date j with
                             | Some d => DStr (isoformat d)
                             | None => DNone
                             end);
     jd_requirements := Some (Scraper.requirements j);
     jd_keywords := Some (Scraper.keywords j);
     jd_is_eu := Some (Scraper.is_eu j);
     jd_is_uae := Some (Scraper.is_uae j);
     jd_scraped_at := Some (DStr (isoformat (Scraper.naive (Scraper.scraped_at j)))) |}.

Fixpoint collect_paths {J : Type} (process_one : J -> option str) (jobs : list J) : list str :=
  match jobs with
  | [] => []
  | job :: rest =>
      match process_one job with
      | Some resume_file => resume_file :: collect_paths process_one rest
      | None => collect_paths process_one rest
      end
  end.

(** [process_jobs(jobs, config, logger)].  [resume_found] is
    [resume_path.exists()]; [parse_error] is [Some e] when
    [ResumeParser.parse] raises [e], which happens outside any [try] of
    [process_jobs] (result [inl e]: the exception propagates);
    [process_one job] is the outcome of the [try] block for [job]:
    [Some resume_file], or [None] when it raises an [Exception] (logged,
    then [continue]). *)
Definition process_jobs {J : Type} (resume_found : bool) (parse_error : option Scraper.exn)
    (process_one : J -> option str) (jobs : list J) : Scraper.exn + list str :=
  match jobs with
  | [] => inr []
  | _ =>
      if negb resume_found then inr []
      else match parse_error with
           | Some e => inl e
           | None => inr (collect_paths process_one jobs)
           end
  end.

Section Main.

Variable fromisoformat : str -> option Z.
Variable commit_fault : Table -> Table -> option Scraper.exn.

(** [for i, job in enumerate(jobs_to_process): if i < len(resume_paths):
    store.mark_resume_generated(job['id'], resume_paths[i])] *)
Fixpoint mark_resumes (jobs : list JobModel) (resume_paths : list str) (i : nat) (t : Table)
    : SRes unit :=
  match jobs with
  | [] => SOk t tt
  | job :: rest =>
      match nth_error resume_paths i with
      | Some p =>
          match mark_resume_generated commit_fault (id job) p t with
          | SOk t' _ => mark_resumes rest resume_paths (S i) t'
          | SRaise t' e => SRaise t' e
          end
      | None => mark_resumes rest resume_paths (S i) t
      end
  end.

(** The store part of [main()]'s pipeline, from [store.add_jobs(jobs)] to
    [store.mark_as_notified(job_ids)], for one run on a non-empty [jobs]
    list ([if not jobs: return 0] comes first); [datetime.now()] reads
    [now].  The dicts of [jobs_to_process] are the unnotified rows (each
    carries the row's [id]); [sent] is the result of
    [notifier.send_notification].  An exception of [process_jobs]
    propagates, leaving the table as it is. *)
Definition store_phase (now : Z) (jobs : list JobData) (no_resume no_email : bool)
    (resume_found : bool) (parse_error : option Scraper.exn)
    (process_one : JobModel -> option str) (sent : bool) (t : Table) : SRes unit :=
  match jobs with
  | [] => SOk t tt
  | _ =>
  match add_jobs fromisoformat commit_fault now jobs t with
  | SRaise t1 e => SRaise t1 e
  | SOk t1 _ =>
      let unnotified := get_unnotified_jobs t1 in
      match unnotified with
      | [] => SOk t1 tt
      | _ =>
          let jobs_to_process := unnotified in
          let resumed :=
            if no_resume then SOk t1 tt
            else match process_jobs resume_found parse_error process_one jobs_to_process with
                 | inl e => SRaise t1 e
                 | inr resume_paths => mark_resumes jobs_to_process resume_paths O t1
                 end in
          match resumed with
          | SRaise t2 e => SRaise t2 e
          | SOk t2 _ =>
              if no_email then SOk t2 tt
              else if sent then mark_as_notified commit_fault now (map id jobs_to_process) t2
              else SOk t2 tt
          end
      end
  end
  end.

End Main.

End Pipeline.

(* ================================================================== *)
(** * Properties *)

(* ------------------------------------------------------------------ *)
(** ** The location classifier *)

Module ClassifierFacts.

Lemma starts_with_app (p q : str) : starts_with p (p ++ q) = true.
Proof.
  induction p as [|c p IH]; simpl; [reflexivity|].
  rewrite N.eqb_refl, IH. reflexivity.
Qed.

Lemma contains_app (p sub q : str) : contains sub (p ++ sub ++ q) = true.
Proof.
  induction p as [|c p IH]; simpl.
  - destruct sub as [|c sub]; [destruct q; reflexivity|].
    simpl. rewrite N.eqb_refl, starts_with_app. reflexivity.
  - rewrite IH, orb_true_r. reflexivity.
Qed.

Lemma lower_app (a b : str) : lower (a ++ b) = lower a ++ lower b.
Proof. apply map_app. Qed.

Lemma is_eu_location_iff (loc : str) :
  is_eu_location loc = true <->
  exists c, In c eu_countries /\ contains (lower c) (lower loc) = true.
Proof. unfold is_eu_location. rewrite existsb_exists. reflexivity. Qed.

Lemma is_uae_location_iff (loc : str) :
  is_uae_location loc = true <->
  exists i, In i uae_indicators /\ contains i (lower loc) = true.
Proof. unfold is_uae_location. rewrite existsb_exists. reflexivity. Qed.

Lemma uae_indicators_lower (i : str) : In i uae_indicators -> lower i = i.
Proof.
  simpl. intros [H|[H|[H|[H|[H|[]]]]]]; subst; vm_compute; reflexivity.
Qed.

(** The words of [s.split()] are non-empty and free of whitespace, and
    together they are [s] without its whitespace. *)
Definition good_word (w : str) : Prop :=
  w <> [] /\ forallb (fun c => negb (py_isspace c)) w = true.

Lemma split_aux_words (s cur : str) :
  forallb (fun c => negb (py_isspace c)) cur = true ->
  Forall good_word (split_aux s cur) /\
  List.concat (split_aux s cur) = rev cur ++ List.filter (fun c => negb (py_isspace c)) s.
Proof.
  revert cur. induction s as [|c s IH]; intros cur Hcur; simpl.
  - destruct cur as [|d cur]; simpl.
    + split; [constructor | reflexivity].
    + split.
      * constructor; [|constructor]. split.
        -- intro H. simpl in H. apply app_eq_nil in H as [_ H]. discriminate.
        -- rewrite forallb_app. simpl in *. apply andb_true_iff in Hcur as [H1 H2].
           rewrite forallb_forall in *. rewrite andb_true_iff; split.
           ++ rewrite forallb_forall. intros x Hx. apply H2. apply in_rev. exact Hx.
           ++ rewrite H1. reflexivity.
      * simpl. rewrite !app_nil_r. reflexivity.
  - destruct (py_isspace c) eqn:Hc; simpl.
    + destruct (IH [] eq_refl) as [IH1 IH2].
      destruct cur as [|d cur].
      * split; [exact IH1|]. rewrite IH2. reflexivity.
      * split.
        -- constructor; [|exact IH1]. split.
           ++ intro H. simpl in H. apply app_eq_nil in H as [_ H]. discriminate.
           ++ rewrite forallb_forall in *. intros x Hx. apply Hcur.
              apply in_rev. exact Hx.
        -- simpl. rewrite IH2. simpl. reflexivity.
    + assert (Hc' : forallb (fun c => negb (py_isspace c)) (c :: cur) = true).
      { simpl. rewrite Hc, Hcur. reflexivity. }
      destruct (IH (c :: cur) Hc') as [IH1 IH2].
      split; [exact IH1|]. rewrite IH2. simpl. rewrite <- app_assoc. reflexivity.
Qed.

Lemma py_split_words (s : str) :
  Forall good_word (py_split s) /\
  List.concat (py_split s) = List.filter (fun c => negb (py_isspace c)) s.
Proof. apply (split_aux_words s []). reflexivity. Qed.

Lemma classifier_case_insensitive (s1 s2 : str) :
  lower s1 = lower s2 ->
  is_eu_location s1 = is_eu_location s2 /\ is_uae_location s1 = is_uae_location s2.
Proof. intros H. unfold is_eu_location, is_uae_location. rewrite H. split; reflexivity. Qed.

(** C9: [is_eu_location] and [is_uae_location] are case-insensitive
    substring matches against fixed vocabularies, a match anywhere in the
    string giving [true]; [normalize_location] joins the whitespace-free
    words of its input with single spaces and then applies the fixed
    substitution table in order; and the four examples of the spec. *)
Theorem location_classifier_spec :
  (forall loc, is_eu_location loc = true <->
     exists c, In c eu_countries /\ contains (lower c) (lower loc) = true) /\
  (forall loc, is_uae_location loc = true <->
     exists i, In i uae_indicators /\ contains i (lower loc) = true) /\
  (forall s1 s2, lower s1 = lower s2 ->
     is_eu_location s1 = is_eu_location s2 /\ is_uae_location s1 = is_uae_location s2) /\
  (forall p c c' q, In c eu_countries -> lower c' = lower c ->
     is_eu_location (p ++ c' ++ q) = true) /\
  (forall p i i' q, In i uae_indicators -> lower i' = i ->
     is_uae_location (p ++ i' ++ q) = true) /\
  (forall loc, loc <> [] ->
     normalize_location loc =
       fold_left (fun l '(old, new) => py_replace old new l) mappings
                 (join (u " ") (py_split loc)) /\
     Forall good_word (py_split loc) /\
     List.concat (py_split loc) = List.filter (fun c => negb (py_isspace c)) loc) /\
  is_eu_location (u "Berlin, Germany") = true /\
  is_eu_location (u "Dubai, UAE") = false /\
  is_uae_location (u "Abu Dhabi") = true /\
  contains (u "Germany") (normalize_location (u "Deutschland")) = true.
Proof.
  split; [exact is_eu_location_iff|].
  split; [exact is_uae_location_iff|].
  split; [exact classifier_case_insensitive|].
  split.
  { intros p c c' q Hin Hl. apply is_eu_location_iff. exists c. split; [exact Hin|].
    rewrite !lower_app, Hl. apply contains_app. }
  split.
  { intros p i i' q Hin Hl. apply is_uae_location_iff. exists i. split; [exact Hin|].
    rewrite !lower_app, Hl. apply contains_app. }
  split.
  { intros loc Hne. split; [|apply py_split_words].
    destruct loc as [|c loc]; [congruence|reflexivity]. }
  vm_compute. repeat split.
Qed.

End ClassifierFacts.

(* ------------------------------------------------------------------ *)
(** ** The stable sort of [filter_jobs] *)

Module SortFacts.

Import Scraper.

(** The position of a key in Python's order on [(bool, bool)]. *)
Definition rank (k : bool * bool) : nat :=
  (if fst k then 2 else 0) + (if snd k then 1 else 0).

Lemma tuple_lt_rank (x y : bool * bool) : tuple_lt x y = Nat.ltb (rank x) (rank y).
Proof. destruct x as [[|] [|]], y as [[|] [|]]; reflexivity. Qed.

Section ByKey.

Context {A : Type} (key : A -> bool * bool).

Definition tier (r : nat) (l : list A) : list A :=
  List.filter (fun y => Nat.eqb (rank (key y)) r) l.

Lemma insert_by_split (x : A) (P Q : list A) :
  Forall (fun y => rank (key y) < rank (key x)) P ->
  Forall (fun y => rank (key x) <= rank (key y)) Q ->
  insert_by key x (P ++ Q) = P ++ x :: Q.
Proof.
  intros HP HQ. induction HP as [|y P Hy HP IH]; simpl.
  - destruct Q as [|z Q]; simpl; [reflexivity|].
    inversion HQ as [|? ? Hz]; subst.
    rewrite tuple_lt_rank. destruct (Nat.ltb_spec (rank (key z)) (rank (key x))); [lia|].
    reflexivity.
  - rewrite tuple_lt_rank. destruct (Nat.ltb_spec (rank (key y)) (rank (key x))); [|lia].
    rewrite IH. reflexivity.
Qed.

Lemma tier_rank (r : nat) (l : list A) : Forall (fun y => rank (key y) = r) (tier r l).
Proof.
  apply Forall_forall. intros y Hy. unfold tier in Hy.
  apply filter_In in Hy as [_ Hy]. apply Nat.eqb_eq. exact Hy.
Qed.

Lemma Forall_weaken (P Q : A -> Prop) (l : list A) :
  (forall y, P y -> Q y) -> Forall P l -> Forall Q l.
Proof. intros H HP. induction HP; constructor; auto. Qed.

Lemma rank_le_3 (k : bool * bool) : rank k <= 3.
Proof. destruct k as [[|] [|]]; unfold rank; simpl; lia. Qed.

(** The sorted list is the four tiers of the input, each in input order. *)
Lemma sort_by_tiers (l : list A) :
  sort_by key l = tier 0 l ++ tier 1 l ++ tier 2 l ++ tier 3 l.
Proof.
  induction l as [|x l IH]; [reflexivity|].
  simpl sort_by. rewrite IH. unfold tier at 5 6 7 8. simpl List.filter.
  fold (tier 0 l) (tier 1 l) (tier 2 l) (tier 3 l).
  pose proof (tier_rank 0 l) as H0. pose proof (tier_rank 1 l) as H1.
  pose proof (tier_rank 2 l) as H2. pose proof (tier_rank 3 l) as H3.
  pose proof (rank_le_3 (key x)) as Hx.
  destruct (rank (key x)) as [|[|[|[|r]]]] eqn:Ex; simpl Nat.eqb; cbv iota.
  - pose proof (insert_by_split x [] (tier 0 l ++ tier 1 l ++ tier 2 l ++ tier 3 l)) as E.
    cbn [app] in E. rewrite E; [reflexivity|constructor|].
    rewrite Ex. repeat (apply Forall_app; split);
      (eapply Forall_weaken; [|eassumption]); simpl; intros; lia.
  - rewrite (insert_by_split x (tier 0 l) _); [reflexivity| |].
    + rewrite Ex. eapply Forall_weaken; [|eassumption]. simpl; intros; lia.
    + rewrite Ex. repeat (apply Forall_app; split);
        (eapply Forall_weaken; [|eassumption]); simpl; intros; lia.
  - rewrite app_assoc, (insert_by_split x (tier 0 l ++ tier 1 l) _).
    + rewrite <- app_assoc. reflexivity.
    + rewrite Ex. apply Forall_app; split;
        (eapply Forall_weaken; [|eassumption]); simpl; intros; lia.
    + rewrite Ex. apply Forall_app; split;
        (eapply Forall_weaken; [|eassumption]); simpl; intros; lia.
  - rewrite (app_assoc (tier 0 l)), (app_assoc (tier 0 l ++ tier 1 l)).
    rewrite (insert_by_split x ((tier 0 l ++ tier 1 l) ++ tier 2 l) _).
    + rewrite <- !app_assoc. reflexivity.
    + rewrite Ex. repeat (apply Forall_app; split);
        (eapply Forall_weaken; [|eassumption]); simpl; intros; lia.
    + rewrite Ex. eapply Forall_weaken; [|eassumption]. simpl; intros; lia.
  - lia.
Qed.

Lemma insert_by_perm (x : A) (l : list A) : Permutation (insert_by key x l) (x :: l).
Proof.
  induction l as [|y l IH]; simpl; [reflexivity|].
  destruct (tuple_lt (key y) (key x)); [|reflexivity].
  rewrite IH. apply perm_swap.
Qed.

Lemma sort_by_perm (l : list A) : Permutation (sort_by key l) l.
Proof.
  induction l as [|x l IH]; simpl; [reflexivity|].
  rewrite insert_by_perm, IH. reflexivity.
Qed.

End ByKey.

End SortFacts.

(* ------------------------------------------------------------------ *)
(** ** The loop of [filter_jobs] *)

Module FilterFacts.

Import Scraper.

(** A job after the filter step marked it. *)
Definition marked (j : Job) : Job :=
  let n := normalize_location (location j) in
  set_flags j (is_eu_location n) (is_uae_location n).

Lemma marked_marked (j : Job) : marked (marked j) = marked j.
Proof. destruct j; reflexivity. Qed.



(** [w] is [w0] with the jobs of [acc] (and only those) marked. *)
Definition Inv (w0 w : World) (acc : list nat) : Prop :=
  forall l, (In l acc -> heap w l = marked (heap w0 l)) /\
            (~ In l acc -> heap w l = heap w0 l).


Lemma Inv_mark (w0 w : World) (acc : list nat) (l : nat) (t : nat) :
  Inv w0 w acc ->
  Inv w0 (mkWorld (heap_set (heap w) l (marked (heap w l))) t) (acc ++ [l]).
Proof.
  intros H l'. simpl. unfold heap_set.
  destruct (Nat.eqb_spec l' l) as [->|Hne].
  - split.
    + intros _. destruct (H l) as [H1 H2].
      destruct (in_dec Nat.eq_dec l acc) as [Hi|Hi].
      * rewrite (H1 Hi). apply marked_marked.
      * rewrite (H2 Hi). reflexivity.
    + intros Hn. exfalso. apply Hn. apply in_or_app. right. left. reflexivity.
  - destruct (H l') as [H1 H2]. split.
    + intros Hi. apply in_app_or in Hi as [Hi|[Hi|[]]]; [exact (H1 Hi)|congruence].
    + intros Hn. apply H2. intros Hi. apply Hn. apply in_or_app. left. exact Hi.
Qed.



Section Loop.

Variable clock : nat -> Z.
Variable cfg : Config.
Variable w0 : World.

Lemma filter_loop_cons (w : World) (l : nat) (rest acc : list nat) :
  filter_loop clock cfg w (l :: rest) acc =
  if negb (title_match (job_titles cfg) (title (heap w l))) then
    filter_loop clock cfg w rest acc
  else
    match age_check clock cfg w (heap w l) with
    | Raise w1 e => Raise w1 e
    | Ok w1 true => filter_loop clock cfg w1 rest acc
    | Ok w1 false =>
        filter_loop clock cfg (mkWorld (heap_set (heap w1) l (marked (heap w l))) (tick w1))
                    rest (acc ++ [l])
    end.
Proof. reflexivity. Qed.

Lemma age_check_heap (w : World) (job : Job) :
  heap (res_world (age_check clock cfg w job)) = heap w.
Proof. unfold age_check. destruct (posted_date job) as [[p [off|]]|]; reflexivity. Qed.


(** The loop marks exactly the jobs it keeps, which are jobs of its input;
    when it raises, the jobs it kept until then are marked. *)
Lemma filter_loop_marks (jobs : list nat) :
  forall w acc, Inv w0 w acc ->
  exists ys, incl ys jobs /\
    Inv w0 (res_world (filter_loop clock cfg w jobs acc)) (acc ++ ys) /\
    (forall v, res_value (filter_loop clock cfg w jobs acc) = Some v -> v = acc ++ ys).
Proof.
  induction jobs as [|l rest IH]; intros w acc Hinv.
  - exists []. rewrite app_nil_r. split; [intros x []|]. split; [exact Hinv|].
    intros v H. injection H as <-. reflexivity.
  - rewrite filter_loop_cons.
    destruct (negb _).
    + destruct (IH w acc Hinv) as [ys [H1 [H2 H3]]]. exists ys.
      split; [intros x Hx; right; apply H1, Hx|]. split; [exact H2|exact H3].
    + pose proof (age_check_heap w (heap w l)) as Hh.
      destruct (age_check clock cfg w (heap w l)) as [w1 [|]|w1 e]; cbn [res_world] in Hh.
      * assert (Hinv1 : Inv w0 w1 acc) by (intros x; rewrite Hh; apply Hinv).
        destruct (IH w1 acc Hinv1) as [ys [H1 [H2 H3]]]. exists ys.
        split; [intros x Hx; right; apply H1, Hx|]. split; [exact H2|exact H3].
      * rewrite Hh. pose proof (Inv_mark w0 w acc l (tick w1) Hinv) as Hinv1.
        destruct (IH _ _ Hinv1) as [ys [H1 [H2 H3]]]. exists (l :: ys).
        rewrite <- app_assoc in H2, H3. split; [|split; [exact H2|exact H3]].
        intros x [Hx|Hx]; [left; exact Hx|right; apply H1, Hx].
      * exists []. rewrite app_nil_r. split; [intros x []|]. split; [|discriminate].
        intros x. cbn [res_world]. rewrite Hh. apply Hinv.
Qed.


End Loop.

End FilterFacts.

(* ------------------------------------------------------------------ *)
(** ** Claims on [filter_jobs] *)

Module FilterClaims.

Import Scraper FilterFacts SortFacts.

Lemma filter_jobs_world (clock : nat -> Z) (cfg : Config) (w : World) (jobs : list nat) :
  res_world (filter_jobs clock cfg w jobs) = res_world (filter_loop clock cfg w jobs []).
Proof. unfold filter_jobs. destruct (filter_loop clock cfg w jobs []); reflexivity. Qed.

Lemma filter_jobs_value (clock : nat -> Z) (cfg : Config) (w : World) (jobs : list nat) :
  res_value (filter_jobs clock cfg w jobs) =
  option_map (sort_by (fun l => sort_key (heap (res_world (filter_loop clock cfg w jobs [])) l)))
             (res_value (filter_loop clock cfg w jobs [])).
Proof. unfold filter_jobs. destruct (filter_loop clock cfg w jobs []); reflexivity. Qed.

Lemma Inv_nil (w : World) : Inv w w [].
Proof. intros l. split; [intros []|reflexivity]. Qed.

(** C10: on the jobs it keeps, [filter_jobs] assigns [is_eu] and [is_uae]
    (computed from the normalised location) and nothing else, so
    [location] keeps its raw value; every other job object, the dropped
    ones included, is left as it was.  Whether it returns or raises, every
    job object afterwards is the one before, or (for a job of the input)
    that job with the two flags assigned. *)
Theorem filter_jobs_frame (clock : nat -> Z) (cfg : Config) (w : World) (jobs : list nat) :
  let r := filter_jobs clock cfg w jobs in
  let w' := res_world r in
  (forall out, res_value r = Some out ->
     (forall l, In l out ->
        In l jobs /\
        heap w' l = set_flags (heap w l)
                      (is_eu_location (normalize_location (location (heap w l))))
                      (is_uae_location (normalize_location (location (heap w l))))) /\
     (forall l, ~ In l out -> heap w' l = heap w l)) /\
  (forall l, heap w' l = heap w l \/
             (In l jobs /\
              heap w' l = set_flags (heap w l)
                            (is_eu_location (normalize_location (location (heap w l))))
                            (is_uae_location (normalize_location (location (heap w l)))))) /\
  (forall l, set_flags (heap w' l) false false = set_flags (heap w l) false false /\
             location (heap w' l) = location (heap w l)).
Proof.
  cbv zeta. rewrite filter_jobs_world, filter_jobs_value.
  destruct (filter_loop_marks clock cfg w jobs w [] (Inv_nil w)) as [ys [Hincl [Hinv Hval]]].
  simpl app in Hinv, Hval.
  split; [|split].
  - intros out Hout.
    destruct (res_value (filter_loop clock cfg w jobs [])) as [v|] eqn:Ev; [|discriminate].
    cbn [option_map] in Hout. injection Hout as <-. rewrite (Hval v eq_refl).
    assert (Hmem : forall l, In l (sort_by (fun l => sort_key
                                  (heap (res_world (filter_loop clock cfg w jobs [])) l)) ys) <->
                             In l ys).
    { intros l. split; apply Permutation_in; [|symmetry]; apply sort_by_perm. }
    split.
    + intros l Hl. apply Hmem in Hl. split; [apply Hincl, Hl|apply (Hinv l), Hl].
    + intros l Hl. apply (Hinv l). intros H. apply Hl, Hmem, H.
  - intros l. destruct (in_dec Nat.eq_dec l ys) as [Hi|Hi].
    + right. split; [apply Hincl, Hi|apply (Hinv l), Hi].
    + left. apply (Hinv l), Hi.
  - intros l. destruct (in_dec Nat.eq_dec l ys) as [Hi|Hi].
    + rewrite (proj1 (Hinv l) Hi). destruct (heap w l); split; reflexivity.
    + rewrite (proj2 (Hinv l) Hi). split; reflexivity.
Qed.



(** [l1] is [l2] with some elements left out, the others in order. *)
Inductive sublist : list nat -> list nat -> Prop :=
| sublist_nil : sublist [] []
| sublist_skip x l1 l2 : sublist l1 l2 -> sublist l1 (x :: l2)
| sublist_take x l1 l2 : sublist l1 l2 -> sublist (x :: l1) (x :: l2).

Lemma filter_loop_sublist (clock : nat -> Z) (cfg : Config) (jobs : list nat) :
  forall w acc v, res_value (filter_loop clock cfg w jobs acc) = Some v ->
  exists ys, v = acc ++ ys /\ sublist ys jobs.
Proof.
  induction jobs as [|l rest IH]; intros w acc v H.
  - injection H as <-. exists []. rewrite app_nil_r. split; [reflexivity|constructor].
  - rewrite filter_loop_cons in H.
    destruct (negb _).
    + destruct (IH _ _ _ H) as [ys [-> Hs]]. exists ys.
      split; [reflexivity|apply sublist_skip, Hs].
    + destruct (age_check clock cfg w (heap w l)) as [w1 [|]|w1 e]; [| |discriminate H].
      * destruct (IH _ _ _ H) as [ys [-> Hs]]. exists ys.
        split; [reflexivity|apply sublist_skip, Hs].
      * destruct (IH _ _ _ H) as [ys [-> Hs]]. exists (l :: ys).
        rewrite <- app_assoc. split; [reflexivity|apply sublist_take, Hs].
Qed.

Lemma filter_false_nil (f : nat -> bool) (l : list nat) :
  (forall x, In x l -> f x = false) -> List.filter f l = [].
Proof.
  induction l as [|x l IH]; intros H; simpl; [reflexivity|].
  rewrite (H x (or_introl eq_refl)). apply IH. intros y Hy. apply H. right. exact Hy.
Qed.

(** The sort of [filter_jobs] orders the kept jobs by the key
    [(not is_eu, not is_uae)], stably: first the jobs that are both EU and
    UAE, then EU-only, then UAE-only, then the others, each group in the
    order of the loop's output, which is the input order with the dropped
    jobs left out.  When no kept job is both EU and UAE, these are the
    three tiers EU, UAE, other.  When the loop raises, so does
    [filter_jobs]. *)
Lemma filter_jobs_sort_key_classes (clock : nat -> Z) (cfg : Config) (w : World) (jobs : list nat) :
  match filter_loop clock cfg w jobs [] with
  | Ok w' kept =>
      let eu l := is_eu (heap w' l) in
      let uae l := is_uae (heap w' l) in
      sublist kept jobs /\
      filter_jobs clock cfg w jobs =
        Ok w' (List.filter (fun l => eu l && uae l) kept ++
               List.filter (fun l => eu l && negb (uae l)) kept ++
               List.filter (fun l => negb (eu l) && uae l) kept ++
               List.filter (fun l => negb (eu l) && negb (uae l)) kept) /\
      ((forall l, In l kept -> eu l && uae l = false) ->
       filter_jobs clock cfg w jobs =
         Ok w' (List.filter eu kept ++
                List.filter (fun l => negb (eu l) && uae l) kept ++
                List.filter (fun l => negb (eu l) && negb (uae l)) kept))
  | Raise w' e => filter_jobs clock cfg w jobs = Raise w' e
  end.
Proof.
  pose proof (filter_loop_sublist clock cfg jobs w []) as Hsub.
  unfold filter_jobs. destruct (filter_loop clock cfg w jobs []) as [w' kept|w' e];
    [|reflexivity].
  cbv zeta.
  assert (Hsort : sort_by (fun l => sort_key (heap w' l)) kept =
    List.filter (fun l => is_eu (heap w' l) && is_uae (heap w' l)) kept ++
    List.filter (fun l => is_eu (heap w' l) && negb (is_uae (heap w' l))) kept ++
    List.filter (fun l => negb (is_eu (heap w' l)) && is_uae (heap w' l)) kept ++
    List.filter (fun l => negb (is_eu (heap w' l)) && negb (is_uae (heap w' l))) kept).
  { rewrite sort_by_tiers. unfold tier.
    f_equal; [|f_equal; [|f_equal]]; apply List.filter_ext; intros x; unfold rank, sort_key;
      destruct (is_eu _), (is_uae _); reflexivity. }
  split; [|split; [rewrite Hsort; reflexivity|]].
  - destruct (Hsub kept eq_refl) as [ys [-> H2]]. exact H2.
  - intros Hno. rewrite Hsort. rewrite (filter_false_nil _ _ Hno). simpl.
    f_equal. f_equal. apply List.filter_ext_in. intros x Hx. specialize (Hno x Hx).
    destruct (is_eu _), (is_uae _); simpl in *; congruence.
Qed.

(** Jobs for the examples. *)
Definition mk_job (t loc : str) (eu uae : bool) : Job :=
  mkJob [] t [] loc [] [] None [] [] eu uae 0.

Definition example_cfg : Config := mkConfig [u "Data Engineer"] 30.

(** A job posted at the wall-clock reading [0], UTC ([fromisoformat] of
    an ISO string ending in "+00:00", as [LinkedInScraper.parse_job] makes
    from one ending in "Z"). *)
Definition aware_job : Job :=
  (mkJob [] (u "Data Engineer") [] (u "Berlin, Germany") [] []
        (Some (mkDatetime 0 (Some 0))) [] [] false false 0)%Z.

(** [A] (other), [B] (EU), [C] (UAE), [D] (EU) at references 1, 2, 3, 4;
    reference 5 holds a job whose location is both EU and UAE, reference
    6 a job with an aware [posted_date]. *)
Definition example_world : World :=
  mkWorld (fun l => match l with
                    | 1 => mk_job (u "Data Engineer") (u "London, United Kingdom") false false
                    | 2 => mk_job (u "Data Engineer") (u "Berlin, Germany") true false
                    | 3 => mk_job (u "Data Engineer") (u "Dubai, UAE") false true
                    | 4 => mk_job (u "Data Engineer") (u "Paris, France") true false
                    | 5 => mk_job (u "Data Engineer") (u "Dubai, UAE / Berlin, Germany") true false
                    | 6 => aware_job
                    | _ => mk_job [] [] false false
                    end%nat) 0.

(** C2 (as the code does it): the sort of [filter_jobs] is the stable sort
    by [(not is_eu, not is_uae)]: the kept jobs that are both EU and UAE,
    then EU-only, then UAE-only, then the others, each group in input
    order; without jobs that are both, the three tiers EU, UAE, other.
    On [A] (other), [B] (EU), [C] (UAE), [D] (EU) the output is
    [B, D, C, A]. *)
Theorem filter_jobs_tiered_sort :
  (forall (clock : nat -> Z) (cfg : Config) (w : World) (jobs : list nat),
    match filter_loop clock cfg w jobs [] with
    | Ok w' kept =>
        let eu l := is_eu (heap w' l) in
        let uae l := is_uae (heap w' l) in
        sublist kept jobs /\
        filter_jobs clock cfg w jobs =
          Ok w' (List.filter (fun l => eu l && uae l) kept ++
                 List.filter (fun l => eu l && negb (uae l)) kept ++
                 List.filter (fun l => negb (eu l) && uae l) kept ++
                 List.filter (fun l => negb (eu l) && negb (uae l)) kept) /\
        ((forall l, In l kept -> eu l && uae l = false) ->
         filter_jobs clock cfg w jobs =
           Ok w' (List.filter eu kept ++
                  List.filter (fun l => negb (eu l) && uae l) kept ++
                  List.filter (fun l => negb (eu l) && negb (uae l)) kept))
    | Raise w' e => filter_jobs clock cfg w jobs = Raise w' e
    end) /\
  res_value (filter_jobs (fun _ => 0%Z) example_cfg example_world [1; 2; 3; 4]) = Some [2; 4; 3; 1].
Proof.
  split; [exact filter_jobs_sort_key_classes|].
  vm_compute. reflexivity.
Qed.

(** C2, refuted as stated: [B] (Berlin, EU) comes before [5] (a location
    naming both Dubai and Germany, so EU and UAE) in the input, both are in
    the EU tier, and the output puts [5] first. *)
Lemma filter_jobs_eu_tier_reordered :
  let r := filter_jobs (fun _ => 0%Z) example_cfg example_world [2; 5] in
  res_value r = Some [5; 2] /\
  is_eu (heap (res_world r) 2) = true /\ is_eu (heap (res_world r) 5) = true.
Proof. vm_compute. repeat split. Qed.



End FilterClaims.

(* ------------------------------------------------------------------ *)
(** ** [scrape]: the soft-fail boundary *)

Module ScrapeClaims.

Import Scraper.

(** C1 (as the code does it): whatever the adapter, an exception deriving
    from [Exception] raised by [fetch_jobs], by [parse_job] or by the
    filter step makes [scrape] return an empty list; [scrape] raises only
    exceptions that do not derive from [Exception], and those propagate
    unchanged. *)
Theorem scrape_soft_fail (clock : nat -> Z) (a : Adapter) (cfg : Config) (w : World) :
  (forall w' e, scrape_body clock a cfg w = Raise w' e -> is_exception e = true ->
     scrape clock a cfg w = Ok w' []) /\
  (forall w' e, fetch_jobs a w = Raise w' e -> is_exception e = true ->
     scrape clock a cfg w = Ok w' []) /\
  (forall w' e, scrape clock a cfg w = Raise w' e ->
     is_exception e = false /\ scrape_body clock a cfg w = Raise w' e) /\
  (forall w' v, scrape_body clock a cfg w = Ok w' v -> scrape clock a cfg w = Ok w' v).
Proof.
  unfold scrape. split; [|split; [|split]].
  - intros w' e H He. rewrite H, He. reflexivity.
  - intros w' e H He. unfold scrape_body. rewrite H, He. reflexivity.
  - intros w' e H. destruct (scrape_body clock a cfg w) as [w1 v|w1 e1]; [discriminate|].
    destruct (is_exception e1) eqn:He; [discriminate|].
    injection H as -> ->. split; [exact He|reflexivity].
  - intros w' v H. rewrite H. reflexivity.
Qed.

(** An adapter whose [fetch_jobs] is interrupted by the user. *)
Definition interrupted_adapter : Adapter :=
  mkAdapter unit (fun w => Raise w KeyboardInterrupt) (fun _ w => Ok w None).

(** C1, refuted as stated: a [KeyboardInterrupt] escaping [fetch_jobs] is
    not caught by [scrape]. *)
Lemma scrape_propagates_interrupt :
  scrape (fun _ => 0%Z) interrupted_adapter FilterClaims.example_cfg FilterClaims.example_world =
  Raise FilterClaims.example_world KeyboardInterrupt.
Proof. reflexivity. Qed.

End ScrapeClaims.

(* ------------------------------------------------------------------ *)
(** ** [days_since_posted] *)

Module DaysClaims.

Import Scraper.




End DaysClaims.

(* ------------------------------------------------------------------ *)
(** ** The relative-date parsers *)

Module DateClaims.

Import DateParse ClassifierFacts.

Local Open Scope Z_scope.

Definition all_digits (ds : str) : bool := forallb is_digit ds.

Lemma take_while_app_stop (P : char -> bool) (xs ys : str) :
  forallb P xs = true ->
  match ys with [] => True | c :: _ => P c = false end ->
  take_while P (xs ++ ys) = xs.
Proof.
  intros Hx Hy. induction xs as [|x xs IH]; simpl in *.
  - destruct ys as [|c ys]; [reflexivity|]. simpl. rewrite Hy. reflexivity.
  - apply andb_true_iff in Hx as [Hx1 Hx2]. rewrite Hx1, IH by exact Hx2. reflexivity.
Qed.

Lemma filter_countdown_S (n : nat) :
  List.filter (fun k => Nat.leb 1 k) (countdown (S n)) =
  S n :: List.filter (fun k => Nat.leb 1 k) (countdown n).
Proof. reflexivity. Qed.

Lemma firstn_skipn_app (ds rest : str) :
  firstn (List.length ds) (ds ++ rest) = ds /\ skipn (List.length ds) (ds ++ rest) = rest.
Proof.
  induction ds as [|d ds IH]; simpl; [split; reflexivity|].
  destruct IH as [H1 H2]. rewrite H1, H2. split; reflexivity.
Qed.

Lemma skipn_len_app (xs ys : str) : skipn (List.length xs) (xs ++ ys) = ys.
Proof. apply firstn_skipn_app. Qed.

Lemma first_some_cons {A B : Type} (f : A -> option B) (x : A) (l : list A) :
  first_some f (x :: l) = match f x with Some v => Some v | None => first_some f l end.
Proof. reflexivity. Qed.

(** A greedy quantifier first tries the longest repetition. *)
Lemma first_some_countdown {B : Type} (f : nat -> option B) (n : nat) (v : B) :
  f n = Some v -> first_some f (countdown n) = Some v.
Proof. intros H. destruct n; simpl; rewrite H; reflexivity. Qed.

(** Of alternatives tried left to right, the one that matches is taken
    when it is the only one that does. *)
Lemma first_some_pick {B : Type} (units : list str) (x s : str) (G : str -> option B) (v : B) :
  In x units -> starts_with x s = true -> G x = Some v ->
  (forall y, In y units -> y <> x -> starts_with y s = false) ->
  first_some (fun y => if starts_with y s then G y else None) units = Some v.
Proof.
  intros Hin Hs HG Hoth. induction units as [|a units IH]; [destruct Hin|].
  simpl. destruct (list_eq_dec N.eq_dec a x) as [->|Hne].
  - rewrite Hs, HG. reflexivity.
  - rewrite (Hoth a (or_introl eq_refl) Hne).
    destruct Hin as [Ha|Hin]; [congruence|].
    apply IH; [exact Hin|]. intros y Hy. apply Hoth. right. exact Hy.
Qed.

Lemma search_unfold (units : list str) (s : str) :
  search units s =
  match match_ago units s with
  | Some r => Some r
  | None => match s with [] => None | _ :: s' => search units s' end
  end.
Proof. destruct s; reflexivity. Qed.

(** No match starts at a code point that is not a digit. *)
Lemma match_ago_nondigit (units : list str) (c : char) (s : str) :
  is_digit c = false -> match_ago units (c :: s) = None.
Proof. intros H. unfold match_ago. cbn [take_while]. rewrite H. reflexivity. Qed.

(** [re.search] passes over a text without digits. *)
Lemma search_skip (units : list str) (p r : str) :
  forallb (fun c => negb (is_digit c)) p = true -> search units (p ++ r) = search units r.
Proof.
  induction p as [|c p IH]; intros Hp; [reflexivity|].
  simpl in Hp. apply andb_true_iff in Hp as [Hc Hp]. apply negb_true_iff in Hc.
  rewrite <- app_comm_cons, search_unfold, match_ago_nondigit by exact Hc.
  apply IH, Hp.
Qed.

(** [re.search] on a run of digits followed by a text on which the rest of
    the pattern matches. *)
Lemma search_digits (units : list str) (ds rest : str) (unit : str) :
  ds <> [] -> all_digits ds = true ->
  match rest with [] => True | c :: _ => is_digit c = false end ->
  after_digits units rest = Some unit ->
  search units (ds ++ rest) = Some (ds, unit).
Proof.
  intros Hne Hd Hr Ha.
  assert (Hm : match_ago units (ds ++ rest) = Some (ds, unit)).
  { unfold match_ago. rewrite (take_while_app_stop is_digit ds rest Hd Hr).
    destruct ds as [|d ds']; [congruence|].
    change (List.length (d :: ds')) with (S (List.length ds')).
    rewrite filter_countdown_S, first_some_cons. cbv beta.
    destruct (firstn_skipn_app (d :: ds') rest) as [H1 H2].
    change (List.length (d :: ds')) with (S (List.length ds')) in H1, H2.
    rewrite H2, Ha, H1. reflexivity. }
  rewrite search_unfold, Hm. reflexivity.
Qed.

Lemma isspace_cases (c : char) :
  py_isspace c = true ->
  In c [9; 10; 11; 12; 13; 28; 29; 30; 31; 32; 133; 160; 5760;
        8192; 8193; 8194; 8195; 8196; 8197; 8198; 8199; 8200; 8201; 8202;
        8232; 8233; 8239; 8287; 12288]%N.
Proof.
  unfold py_isspace. intros H.
  repeat rewrite orb_true_iff in H. repeat rewrite andb_true_iff in H.
  repeat rewrite N.leb_le in H. repeat rewrite N.eqb_eq in H.
  simpl. lia.
Qed.

(** No white space is a digit. *)
Lemma space_not_digit (c : char) : py_isspace c = true -> is_digit c = false.
Proof.
  intros H. apply isspace_cases in H.
  repeat (destruct H as [<-|H]; [reflexivity|]). destruct H.
Qed.

Lemma ago_tail {B : Type} (x : B) (w2 q : str) :
  forallb py_isspace w2 = true ->
  first_some (fun m2 => if starts_with (u "ago") (skipn m2 (w2 ++ u "ago" ++ q))
                        then Some x else None)
             (countdown (List.length (take_while py_isspace (w2 ++ u "ago" ++ q)))) = Some x.
Proof.
  intros Hw2. rewrite (take_while_app_stop py_isspace w2 _ Hw2) by reflexivity.
  apply first_some_countdown. rewrite skipn_len_app, starts_with_app. reflexivity.
Qed.

Lemma s_not_first (w2 q : str) :
  forallb py_isspace w2 = true -> starts_with (u "s") (w2 ++ u "ago" ++ q) = false.
Proof.
  intros Hw2. destruct w2 as [|c w2]; [reflexivity|].
  simpl in Hw2. apply andb_true_iff in Hw2 as [Hc _].
  assert (E : (115 =? c)%N = false) by (apply N.eqb_neq; intros <-; discriminate Hc).
  change (u "s") with [115%N]. cbn [app starts_with]. rewrite E. reflexivity.
Qed.

(** [s?\s*ago] after the unit. *)
Lemma after_unit_tail {B : Type} (x : B) (pl w2 q : str) :
  forallb py_isspace w2 = true -> In pl [u "s"; []] ->
  first_some (fun o =>
    if Nat.eqb o 1 && negb (starts_with (u "s") (pl ++ w2 ++ u "ago" ++ q)) then None
    else
      first_some (fun m2 =>
        if starts_with (u "ago") (skipn m2 (skipn o (pl ++ w2 ++ u "ago" ++ q)))
        then Some x else None)
        (countdown (List.length (take_while py_isspace (skipn o (pl ++ w2 ++ u "ago" ++ q))))))
    [1%nat; 0%nat] = Some x.
Proof.
  intros Hw2 Hpl. destruct Hpl as [<-|[<-|[]]].
  - rewrite first_some_cons. cbv beta. rewrite starts_with_app. cbn [Nat.eqb andb negb].
    change (skipn 1 (u "s" ++ w2 ++ u "ago" ++ q)) with (w2 ++ u "ago" ++ q).
    rewrite (ago_tail x w2 q Hw2). reflexivity.
  - rewrite first_some_cons. cbv beta. cbn [app].
    rewrite (s_not_first w2 q Hw2). cbn [Nat.eqb andb negb first_some skipn].
    rewrite (ago_tail x w2 q Hw2). reflexivity.
Qed.

(** The part of the pattern after the digits matches white space, a unit
    (the only alternative that does), an optional "s", white space and
    "ago". *)
Lemma after_digits_hit (units : list str) (w1 x pl w2 q : str) :
  forallb py_isspace w1 = true -> forallb py_isspace w2 = true ->
  In x units -> match x with [] => False | c :: _ => py_isspace c = false end ->
  (forall y, In y units -> y <> x -> starts_with y (x ++ pl ++ w2 ++ u "ago" ++ q) = false) ->
  In pl [u "s"; []] ->
  after_digits units (w1 ++ x ++ pl ++ w2 ++ u "ago" ++ q) = Some x.
Proof.
  intros Hw1 Hw2 Hx Hx0 Hoth Hpl. unfold after_digits.
  rewrite (take_while_app_stop py_isspace w1 _ Hw1)
    by (destruct x as [|c x]; [destruct Hx0|exact Hx0]).
  apply first_some_countdown. rewrite skipn_len_app.
  apply (first_some_pick units x _ _ x Hx (starts_with_app x _)); [|exact Hoth].
  cbv beta zeta. rewrite skipn_len_app. exact (after_unit_tail x pl w2 q Hw2 Hpl).
Qed.

(** The units of each parser with their durations in microseconds. *)
Definition linkedin_units : list (str * Z) :=
  [(u "hour", HOUR); (u "day", DAY); (u "week", WEEK); (u "month", 30 * DAY)].

Definition google_units : list (str * Z) :=
  [(u "day", DAY); (u "week", WEEK); (u "month", 30 * DAY)].

Lemma search_hit (units : list str) (p ds w1 x pl w2 q : str) :
  forallb (fun c => negb (is_digit c)) p = true -> ds <> [] -> all_digits ds = true ->
  forallb py_isspace w1 = true -> forallb py_isspace w2 = true ->
  In x units -> match x with [] => False | c :: _ => py_isspace c = false /\ is_digit c = false end ->
  (forall y, In y units -> y <> x -> starts_with y (x ++ pl ++ w2 ++ u "ago" ++ q) = false) ->
  In pl [u "s"; []] ->
  search units (p ++ ds ++ w1 ++ x ++ pl ++ w2 ++ u "ago" ++ q) = Some (ds, x).
Proof.
  intros Hp Hne Hd Hw1 Hw2 Hx Hx0 Hoth Hpl.
  rewrite (search_skip units p _ Hp). apply search_digits; [exact Hne|exact Hd| |].
  - destruct w1 as [|c w1].
    + destruct x as [|c x]; [destruct Hx0|exact (proj2 Hx0)].
    + simpl in Hw1. apply andb_true_iff in Hw1 as [Hc _]. apply space_not_digit, Hc.
  - apply after_digits_hit; try assumption.
    destruct x as [|c x]; [destruct Hx0|exact (proj1 Hx0)].
Qed.

(** C8 (as the code does it): there is no shared parser.  The LinkedIn
    adapter's [_parse_relative_date] maps a text containing "just now" or
    "today" to [now]; otherwise a text that, lower-cased, has a run of
    digits N (any Unicode decimal digits, with no digit before it), white
    space, one of "hour", "day", "week", "month", an optional "s", white
    space and "ago" (anything before and after) goes to [now] minus N
    hours, days, weeks or 30 N days.  The Google adapter's [_parse_date]
    maps a text containing "today" or "just" to [now], one containing
    "yesterday" to [now] minus a day, and otherwise "N day(s)/week(s)/
    month(s) ago" likewise (a result before [datetime.min] is [None]).
    LinkedIn has no "yesterday" and Google no "hours". *)
Theorem relative_date_parsers :
  (forall now s p ds w1 unit dur pl w2 q,
     In (unit, dur) linkedin_units -> In pl [u "s"; []] ->
     lower s = p ++ ds ++ w1 ++ unit ++ pl ++ w2 ++ u "ago" ++ q ->
     forallb (fun c => negb (is_digit c)) p = true -> ds <> [] -> all_digits ds = true ->
     forallb py_isspace w1 = true -> forallb py_isspace w2 = true ->
     contains (u "just now") (lower s) || contains (u "today") (lower s) = false ->
     linkedin_parse_relative_date now s = dt_sub now (digits_value ds * dur)) /\
  (forall now s, contains (u "just now") (lower s) || contains (u "today") (lower s) = true ->
     linkedin_parse_relative_date now s = Some now) /\
  (forall now s p ds w1 unit dur pl w2 q,
     In (unit, dur) google_units -> In pl [u "s"; []] ->
     lower s = p ++ ds ++ w1 ++ unit ++ pl ++ w2 ++ u "ago" ++ q ->
     forallb (fun c => negb (is_digit c)) p = true -> ds <> [] -> all_digits ds = true ->
     forallb py_isspace w1 = true -> forallb py_isspace w2 = true ->
     contains (u "today") (lower s) || contains (u "just") (lower s) = false ->
     contains (u "yesterday") (lower s) = false ->
     google_parse_date now s = dt_sub now (digits_value ds * dur)) /\
  (forall now s, contains (u "today") (lower s) || contains (u "just") (lower s) = true ->
     google_parse_date now s = Some now) /\
  (forall now s, contains (u "today") (lower s) || contains (u "just") (lower s) = false ->
     contains (u "yesterday") (lower s) = true ->
     google_parse_date now s = dt_sub now DAY) /\
  (forall now, linkedin_parse_relative_date now (u "yesterday") = None) /\
  (forall now, google_parse_date now (u "3 hours ago") = None) /\
  linkedin_parse_relative_date (1000 * DAY) (u "Posted 2 weeks ago") = Some (986 * DAY) /\
  google_parse_date (1000 * DAY) (1635%N :: u "days  ago") = Some (997 * DAY).
Proof.
  split; [|split; [|split; [|split; [|split; [|split; [|split; [|split]]]]]]].
  - intros now s p ds w1 unit dur pl w2 q Hu Hpl Hs Hp Hne Hd Hw1 Hw2 Hn.
    unfold linkedin_parse_relative_date. cbv zeta. rewrite Hn, Hs.
    simpl in Hu. destruct Hu as [Hu|[Hu|[Hu|[Hu|[]]]]]; injection Hu as <- <-;
      (rewrite (search_hit _ p ds w1 _ pl w2 q Hp Hne Hd Hw1 Hw2);
       [| simpl; tauto | split; reflexivity
        | intros y Hy Hne'; simpl in Hy;
          repeat (destruct Hy as [<-|Hy]; [first [reflexivity | congruence]|]); destruct Hy
        | exact Hpl]);
      cbn -[digits_value dt_sub]; first [reflexivity | f_equal; lia].
  - intros now s H. unfold linkedin_parse_relative_date. rewrite H. reflexivity.
  - intros now s p ds w1 unit dur pl w2 q Hu Hpl Hs Hp Hne Hd Hw1 Hw2 Hn Hy.
    unfold google_parse_date. cbv zeta. rewrite Hn, Hy, Hs.
    simpl in Hu. destruct Hu as [Hu|[Hu|[Hu|[]]]]; injection Hu as <- <-;
      (rewrite (search_hit _ p ds w1 _ pl w2 q Hp Hne Hd Hw1 Hw2);
       [| simpl; tauto | split; reflexivity
        | intros y Hy' Hne'; simpl in Hy';
          repeat (destruct Hy' as [<-|Hy']; [first [reflexivity | congruence]|]); destruct Hy'
        | exact Hpl]);
      cbn -[digits_value dt_sub]; first [reflexivity | f_equal; lia].
  - intros now s H. unfold google_parse_date. rewrite H. reflexivity.
  - intros now s H1 H2. unfold google_parse_date. rewrite H1, H2. reflexivity.
  - intros now. reflexivity.
  - intros now. reflexivity.
  - vm_compute. reflexivity.
  - vm_compute. reflexivity.
Qed.

(** C8, refuted as stated: the two parsers disagree on "yesterday" and on
    "3 hours ago". *)
Lemma relative_date_parsers_differ :
  linkedin_parse_relative_date (1000 * DAY) (u "yesterday") = None /\
  google_parse_date (1000 * DAY) (u "yesterday") = Some (999 * DAY) /\
  linkedin_parse_relative_date (1000 * DAY) (u "3 hours ago") = Some (1000 * DAY - 3 * HOUR) /\
  google_parse_date (1000 * DAY) (u "3 hours ago") = None.
Proof. vm_compute. repeat split. Qed.

End DateClaims.

(* ------------------------------------------------------------------ *)
(** ** The job store *)

Module StoreClaims.

Import JobStore.

Local Open Scope Z_scope.

Section Facts.

Variable fromisoformat : str -> option Z.
Variable commit_fault : Table -> Table -> option Scraper.exn.

Lemma str_eqb_spec (a b : str) : str_eqb a b = true <-> a = b.
Proof. unfold str_eqb. destruct (list_eq_dec N.eq_dec a b); split; congruence. Qed.

Lemma query_by_id_none_app (t : Table) (r : JobModel) (i : str) :
  query_by_id t i = None -> id r = i -> exists r', query_by_id (t ++ [r]) i = Some r'.
Proof.
  intros Hq Hr. induction t as [|x t IH]; simpl in *.
  - exists r. rewrite Hr. unfold str_eqb. destruct (list_eq_dec N.eq_dec i i); [reflexivity|congruence].
  - destruct (str_eqb (id x) i); [discriminate|]. apply IH, Hq.
Qed.

(** A job dict whose id is new is inserted as one new row, unless the
    commit fails. *)
Lemma add_job_new (now : Z) (jd : JobData) (t : Table) (i ti co : str) :
  jd_id jd = Some i -> query_by_id t i = None ->
  jd_title jd = Some ti -> jd_company jd = Some co ->
  exists row, id row = i /\ notified row = false /\ resume_generated row = false /\
    add_job fromisoformat commit_fault now jd t =
    match commit_fault t (t ++ [row]) with
    | None => SOk (t ++ [row]) true
    | Some e => SRaise t e
    end.
Proof.
  intros Hi Hq Ht Hc. unfold add_job. rewrite Hi, Hq, Ht, Hc. cbv zeta.
  refine (ex_intro _ _ (conj _ (conj _ (conj _ eq_refl)))); reflexivity.
Qed.

Lemma add_job_existing (now : Z) (jd : JobData) (t : Table) (i : str) :
  jd_id jd = Some i -> query_by_id t i <> None ->
  add_job fromisoformat commit_fault now jd t = SOk t false.
Proof.
  intros Hi Hq. unfold add_job. rewrite Hi.
  destruct (query_by_id t i); [reflexivity|congruence].
Qed.

Lemma str_eqb_refl (a : str) : str_eqb a a = true.
Proof. apply str_eqb_spec. reflexivity. Qed.

Lemma str_eqb_neq (a b : str) : a <> b -> str_eqb a b = false.
Proof. intros H. destruct (str_eqb a b) eqn:E; [apply str_eqb_spec in E; congruence|reflexivity]. Qed.

(** One row through two [mark_as_notified] updates with the same ids. *)
Definition mark_row (now : Z) (job_ids : list str) (r : JobModel) : JobModel :=
  if existsb (str_eqb (id r)) job_ids then set_notified now r else r.

Lemma mark_row_twice (now now' : Z) (job_ids : list str) (r : JobModel) :
  let r1 := mark_row now job_ids r in
  let r2 := mark_row now' job_ids r1 in
  notified r2 = notified r1 /\ is_eu r2 = is_eu r1 /\ is_uae r2 = is_uae r1 /\
  resume_generated r2 = resume_generated r1 /\ (notified r1 = false -> r2 = r1).
Proof.
  unfold mark_row. destruct (existsb (str_eqb (id r)) job_ids) eqn:E; simpl.
  - rewrite E. simpl. repeat split. discriminate.
  - rewrite E. repeat split.
Qed.

Lemma count_map (p : JobModel -> bool) (t : Table) :
  count p t = List.length (List.filter (fun b => b) (map p t)).
Proof.
  unfold count. induction t as [|r t IH]; [reflexivity|].
  simpl. destruct (p r); simpl; rewrite ?IH; reflexivity.
Qed.

Lemma map_mark_twice (now now' : Z) (job_ids : list str) (t : Table) {B} (f : JobModel -> B) :
  (forall r, f (mark_row now' job_ids (mark_row now job_ids r)) = f (mark_row now job_ids r)) ->
  map f (map (mark_row now' job_ids) (map (mark_row now job_ids) t)) =
  map f (map (mark_row now job_ids) t).
Proof.
  intros Hf. rewrite !map_map. apply map_ext. intros r. apply Hf.
Qed.

Lemma mark_twice_stats (now now' : Z) (job_ids : list str) (t : Table) :
  let t1 := map (mark_row now job_ids) t in
  let t2 := map (mark_row now' job_ids) t1 in
  map notified t2 = map notified t1 /\ get_unnotified_jobs t2 = get_unnotified_jobs t1 /\
  get_stats t2 = get_stats t1.
Proof.
  cbv zeta.
  assert (H := mark_row_twice now now' job_ids). cbv zeta in H.
  assert (Hn : map notified (map (mark_row now' job_ids) (map (mark_row now job_ids) t)) =
               map notified (map (mark_row now job_ids) t))
    by (apply map_mark_twice; intros r; apply H).
  split; [exact Hn|]. split.
  - unfold get_unnotified_jobs. induction t as [|r t IH]; [reflexivity|].
    cbn [map List.filter] in *. destruct (H r) as [Hr1 [_ [_ [_ Hr2]]]].
    injection Hn as _ Hn. rewrite Hr1.
    destruct (notified (mark_row now job_ids r)) eqn:E; cbn [negb].
    + apply IH, Hn.
    + rewrite (Hr2 eq_refl). f_equal. apply IH, Hn.
  - unfold get_stats. rewrite !count_map, !length_map.
    rewrite Hn.
    rewrite (map_mark_twice now now' job_ids t is_eu) by (intros r; apply H).
    rewrite (map_mark_twice now now' job_ids t is_uae) by (intros r; apply H).
    rewrite (map_mark_twice now now' job_ids t resume_generated) by (intros r; apply H).
    rewrite (map_mark_twice now now' job_ids t (fun r => negb (notified r)))
      by (intros r; simpl; f_equal; apply H).
    reflexivity.
Qed.

End Facts.

(** C4: [add_job] inserts exactly when no row has the dict's id, whatever
    its other fields: on a table without that id (and with the commit
    going through) the first call inserts one row and returns [True], a
    second call with the same dict returns [False] and leaves the table,
    hence [get_stats()['total_jobs']], unchanged. *)
Theorem add_job_dedup_by_id (fromisoformat : str -> option Z)
    (commit_fault : Table -> Table -> option Scraper.exn)
    (jd : JobData) (i : str) (Hid : jd_id jd = Some i) :
  (forall now t, query_by_id t i <> None ->
     add_job fromisoformat commit_fault now jd t = SOk t false) /\
  (forall now now' t, query_by_id t i = None ->
     jd_title jd <> None -> jd_company jd <> None ->
     (forall t', commit_fault t t' = None) ->
     exists row, id row = i /\
       add_job fromisoformat commit_fault now jd t = SOk (t ++ [row]) true /\
       add_job fromisoformat commit_fault now' jd (t ++ [row]) = SOk (t ++ [row]) false /\
       total_jobs (get_stats (t ++ [row])) = S (total_jobs (get_stats t))).
Proof.
  split.
  - intros now t Hq. apply (add_job_existing _ _ now jd t i Hid Hq).
  - intros now now' t Hq Ht Hc Hcommit.
    destruct (jd_title jd) as [ti|] eqn:Eti; [|congruence].
    destruct (jd_company jd) as [co|] eqn:Eco; [|congruence].
    destruct (add_job_new fromisoformat commit_fault now jd t i ti co Hid Hq Eti Eco)
      as [row [Hr [_ [_ Hadd]]]].
    exists row. split; [exact Hr|]. rewrite Hcommit in Hadd. split; [exact Hadd|]. split.
    + apply (add_job_existing _ _ now' jd _ i Hid).
      destruct (query_by_id_none_app t row i Hq Hr) as [r' Hr']. congruence.
    + simpl. rewrite length_app. simpl. lia.
Qed.

Definition dedup_dict : JobData :=
  mkJobData (Some (u "a1")) (Some (u "Data Engineer")) (Some (u "Acme")) None None None
            None None None None None None.

(** A use of C4 on the empty table. *)
Lemma add_job_dedup_by_id_witness :
  jd_id dedup_dict = Some (u "a1") /\
  add_job (fun _ => None) (fun _ _ => None) 0 dedup_dict [] <> SOk [] false.
Proof.
  split; [reflexivity|].
  destruct (proj2 (add_job_dedup_by_id (fun _ => None) (fun _ _ => None) dedup_dict (u "a1") eq_refl)
              0%Z 0%Z [] eq_refl ltac:(discriminate) ltac:(discriminate) (fun _ => eq_refl))
    as [row [_ [H _]]].
  rewrite H. intros E. injection E as E. destruct row. discriminate.
Defined.

(** C5: a failing [add_job] leaves the committed table as it was and
    raises to its caller; a commit failure is raised as it is. *)
Theorem add_job_failure_atomic (fromisoformat : str -> option Z)
    (commit_fault : Table -> Table -> option Scraper.exn) :
  (forall now jd t t' e, add_job fromisoformat commit_fault now jd t = SRaise t' e -> t' = t) /\
  (forall now jd t i ti co e, jd_id jd = Some i -> query_by_id t i = None ->
     jd_title jd = Some ti -> jd_company jd = Some co ->
     (forall t', commit_fault t t' = Some e) ->
     add_job fromisoformat commit_fault now jd t = SRaise t e).
Proof.
  split.
  - intros now jd t t' e H. unfold add_job in H.
    destruct (jd_id jd) as [i|]; [|congruence].
    destruct (query_by_id t i); [discriminate|].
    destruct (jd_title jd), (jd_company jd); try congruence.
    match type of H with
    | match ?c with _ => _ end = _ => destruct c
    end; congruence.
  - intros now jd t i ti co e Hi Hq Ht Hc Hf.
    destruct (add_job_new fromisoformat commit_fault now jd t i ti co Hi Hq Ht Hc)
      as [row [_ [_ [_ Hadd]]]].
    rewrite Hf in Hadd. exact Hadd.
Qed.

(** C6 (amended): for two job dicts with distinct ids (each with a title
    and a company) and commits that go through, [add_jobs([j1, j2])] on
    the empty table then [mark_as_notified([j1.id])] leaves exactly the row
    of [j2] unnotified, and [mark_resume_generated(j2.id, path)] then makes
    [resumes_generated] 1.  Repeating [mark_as_notified] with the same ids
    leaves the [notified] flags, [get_unnotified_jobs()] and [get_stats()]
    unchanged (it does restamp [notified_at]), and [mark_resume_generated]
    of an absent id changes nothing. *)
Theorem store_round_trip (fromisoformat : str -> option Z)
    (commit_fault : Table -> Table -> option Scraper.exn)
    (Hcommit : forall a b, commit_fault a b = None)
    (now1 now2 : Z) (j1 j2 : JobData) (i1 i2 ti1 ti2 co1 co2 path : str)
    (H1 : jd_id j1 = Some i1) (H2 : jd_id j2 = Some i2) (Hne : i1 <> i2)
    (Ht1 : jd_title j1 = Some ti1) (Hc1 : jd_company j1 = Some co1)
    (Ht2 : jd_title j2 = Some ti2) (Hc2 : jd_company j2 = Some co2) :
  (exists r1 r2 t3,
     id r1 = i1 /\ id r2 = i2 /\
     add_jobs fromisoformat commit_fault now1 [j1; j2] [] = SOk [r1; r2] 2%nat /\
     mark_as_notified commit_fault now2 [i1] [r1; r2] = SOk [set_notified now2 r1; r2] tt /\
     get_unnotified_jobs [set_notified now2 r1; r2] = [r2] /\
     mark_resume_generated commit_fault i2 path [set_notified now2 r1; r2] = SOk t3 tt /\
     resumes_generated (get_stats t3) = 1%nat) /\
  (forall now now' job_ids t, exists t1 t2,
     mark_as_notified commit_fault now job_ids t = SOk t1 tt /\
     mark_as_notified commit_fault now' job_ids t1 = SOk t2 tt /\
     map notified t2 = map notified t1 /\
     get_unnotified_jobs t2 = get_unnotified_jobs t1 /\ get_stats t2 = get_stats t1) /\
  (forall job_id rpath t, query_by_id t job_id = None ->
     mark_resume_generated commit_fault job_id rpath t = SOk t tt).
Proof.
  split; [|split].
  - destruct (add_job_new fromisoformat commit_fault now1 j1 [] i1 ti1 co1 H1 eq_refl Ht1 Hc1)
      as [r1 [Hr1 [Hn1 [Hg1 Hadd1]]]].
    rewrite Hcommit in Hadd1.
    assert (Hq2 : query_by_id [r1] i2 = None)
      by (simpl; rewrite Hr1, (str_eqb_neq _ _ Hne); reflexivity).
    destruct (add_job_new fromisoformat commit_fault now1 j2 [r1] i2 ti2 co2 H2 Hq2 Ht2 Hc2)
      as [r2 [Hr2 [Hn2 [Hg2 Hadd2]]]].
    rewrite Hcommit in Hadd2. simpl in Hadd2.
    exists r1, r2, [set_notified now2 r1; set_resume path r2].
    split; [exact Hr1|]. split; [exact Hr2|]. split.
    + unfold add_jobs. simpl. rewrite Hadd1. simpl. rewrite Hadd2. reflexivity.
    + assert (Hneq : i2 <> i1) by congruence.
      unfold mark_as_notified. simpl. rewrite Hr1, Hr2, str_eqb_refl, (str_eqb_neq _ _ Hneq).
      simpl. rewrite Hcommit. split; [reflexivity|]. split.
      * unfold get_unnotified_jobs. simpl. rewrite Hn2. reflexivity.
      * unfold mark_resume_generated. simpl. rewrite Hr1, Hr2, (str_eqb_neq _ _ Hne), str_eqb_refl.
        rewrite Hcommit. split; [reflexivity|].
        unfold get_stats, count. simpl. rewrite Hg1. reflexivity.
  - intros now now' job_ids t.
    exists (map (mark_row now job_ids) t), (map (mark_row now' job_ids) (map (mark_row now job_ids) t)).
    unfold mark_as_notified. rewrite !Hcommit. split; [reflexivity|]. split; [reflexivity|].
    apply mark_twice_stats.
  - intros job_id rpath t Hq. unfold mark_resume_generated. rewrite Hq. reflexivity.
Qed.

Definition round_trip_dict (i : string) : JobData :=
  mkJobData (Some (u i)) (Some (u "Data Engineer")) (Some (u "Acme")) None None None
            None None None None None None.

(** A use of C6 on two concrete job dicts. *)
Lemma store_round_trip_witness :
  u "j1" <> u "j2" /\
  get_unnotified_jobs
    (match add_jobs (fun _ => None) (fun _ _ => None) 0 [round_trip_dict "j1"; round_trip_dict "j2"] [] with
     | SOk t _ => match mark_as_notified (fun _ _ => None) 5 [u "j1"] t with
                  | SOk t' _ => t' | SRaise t' _ => t' end
     | SRaise t _ => t end) <> [].
Proof.
  split; [discriminate|].
  destruct (proj1 (store_round_trip (fun _ => None) (fun _ _ => None) (fun _ _ => eq_refl) 0%Z 5%Z
              (round_trip_dict "j1") (round_trip_dict "j2") (u "j1") (u "j2")
              (u "Data Engineer") (u "Data Engineer") (u "Acme") (u "Acme") (u "r.docx")
              eq_refl eq_refl ltac:(discriminate) eq_refl eq_refl eq_refl eq_refl))
    as [r1 [r2 [t3 [_ [_ [Ha [Hm [Hu _]]]]]]]].
  rewrite Ha, Hm, Hu. discriminate.
Defined.

Definition notified_row : JobModel :=
  mkJobModel (u "a1") (u "Data Engineer") (u "Acme") (u "Berlin, Germany") [] [] None [] []
             true false (Some 0) true (Some 1) false None.

(** C6, counterexample to the no-op reading: marking an already-notified
    id again stores a new [notified_at], so the table changes. *)
Lemma mark_as_notified_restamps :
  notified notified_row = true /\
  mark_as_notified (fun _ _ => None) 2 [u "a1"] [notified_row] =
    SOk [set_notified 2 notified_row] tt /\
  notified_at (set_notified 2 notified_row) = Some 2 /\
  [set_notified 2 notified_row] <> [notified_row].
Proof.
  split; [reflexivity|]. split; [reflexivity|]. split; [reflexivity|]. discriminate.
Qed.

End StoreClaims.

(* ------------------------------------------------------------------ *)
(** ** More of the job store *)

Module StoreExtras.

Import JobStore.

Local Open Scope Z_scope.

(** The committed table after a store call, whatever its outcome. *)
Definition res_table {A} (r : SRes A) : Table :=
  match r with SOk t _ => t | SRaise t _ => t end.

Lemma query_by_id_app_none (t : Table) (r : JobModel) (i : str) :
  query_by_id t i = None -> id r = i -> query_by_id (t ++ [r]) i = Some r.
Proof.
  intros Hq Hr. induction t as [|x t IH]; simpl in *.
  - rewrite Hr, StoreClaims.str_eqb_refl. reflexivity.
  - destruct (str_eqb (id x) i); [discriminate|]. apply IH, Hq.
Qed.

Lemma count_app_one (p : JobModel -> bool) (t : Table) (r : JobModel) :
  count p (t ++ [r]) = (count p t + if p r then 1 else 0)%nat.
Proof.
  unfold count. rewrite filter_app, length_app. simpl. destruct (p r); reflexivity.
Qed.

Lemma query_by_id_In (t : Table) (i : str) :
  query_by_id t i = None <-> ~ In i (map id t).
Proof.
  induction t as [|r t IH]; simpl; [tauto|].
  destruct (str_eqb (id r) i) eqn:E.
  - apply StoreClaims.str_eqb_spec in E. split; [discriminate|]. intros H. exfalso. auto.
  - rewrite IH. split.
    + intros H [H'|H']; [|auto]. subst. rewrite StoreClaims.str_eqb_refl in E. discriminate.
    + intros H H'. auto.
Qed.

Lemma add_job_raise_table (fromisoformat : str -> option Z)
    (commit_fault : Table -> Table -> option Scraper.exn) now jd t t' e :
  add_job fromisoformat commit_fault now jd t = SRaise t' e -> t' = t.
Proof.
  intros H. unfold add_job in H.
  destruct (jd_id jd) as [i|]; [|congruence].
  destruct (query_by_id t i); [discriminate|].
  destruct (jd_title jd), (jd_company jd); try congruence.
  match type of H with
  | match ?c with _ => _ end = _ => destruct c
  end; congruence.
Qed.

(** What a successful [add_job] does: [None] when it raises, otherwise the
    dict's id and, when a row is inserted, that row. *)
Lemma add_job_ok_cases (fromisoformat : str -> option Z)
    (commit_fault : Table -> Table -> option Scraper.exn) now jd t t' b :
  add_job fromisoformat commit_fault now jd t = SOk t' b ->
  exists i, jd_id jd = Some i /\
    ((b = false /\ t' = t /\ query_by_id t i <> None) \/
     (b = true /\ query_by_id t i = None /\
      exists row, id row = i /\ t' = t ++ [row] /\ jd_title jd = Some (title row) /\
        jd_company jd = Some (company row) /\ notified row = false /\
        resume_generated row = false /\ resume_path row = None)).
Proof.
  intros H. unfold add_job in H.
  destruct (jd_id jd) as [i|] eqn:Ei; [|discriminate]. exists i. split; [reflexivity|].
  destruct (query_by_id t i) eqn:Eq.
  - injection H as <- <-. left. split; [reflexivity|]. split; [reflexivity|]. discriminate.
  - destruct (jd_title jd) as [ti|] eqn:Et; [|discriminate].
    destruct (jd_company jd) as [co|] eqn:Ec; [|discriminate].
    match type of H with
    | match ?c with _ => _ end = _ => destruct c
    end; [discriminate|].
    injection H as <- <-. right. split; [reflexivity|]. split; [reflexivity|].
    eexists; split; [|split; [reflexivity|repeat split]]; reflexivity.
Qed.

Lemma add_jobs_from_app (fromisoformat : str -> option Z)
    (commit_fault : Table -> Table -> option Scraper.exn) now l1 l2 a t :
  add_jobs_from fromisoformat commit_fault now (l1 ++ l2) a t =
  match add_jobs_from fromisoformat commit_fault now l1 a t with
  | SOk t1 a1 => add_jobs_from fromisoformat commit_fault now l2 a1 t1
  | SRaise t1 e => SRaise t1 e
  end.
Proof.
  revert a t. induction l1 as [|jd l1 IH]; intros a t; simpl; [reflexivity|].
  destruct (add_job fromisoformat commit_fault now jd t) as [t' [|]|t' e]; auto.
Qed.

(** [add_jobs_from] only appends rows, whatever happens, and counts them. *)
Lemma add_jobs_from_extends (fromisoformat : str -> option Z)
    (commit_fault : Table -> Table -> option Scraper.exn) now jobs a t :
  exists new, res_table (add_jobs_from fromisoformat commit_fault now jobs a t) = t ++ new /\
    (forall t' n, add_jobs_from fromisoformat commit_fault now jobs a t = SOk t' n ->
       n = (a + List.length new)%nat).
Proof.
  revert a t. induction jobs as [|jd jobs IH]; intros a t; simpl.
  - exists []. rewrite app_nil_r. split; [reflexivity|]. intros t' n H. injection H as _ <-. simpl. lia.
  - destruct (add_job fromisoformat commit_fault now jd t) as [t1 b|t1 e] eqn:E.
    + destruct (add_job_ok_cases _ _ _ _ _ _ _ E) as [i [_ [[-> [-> _]]|[-> [_ [row [_ [-> _]]]]]]]].
      * apply IH.
      * destruct (IH (S a) (t ++ [row])) as [new [Ht Hn]].
        exists (row :: new). rewrite <- app_assoc in Ht. split; [exact Ht|].
        intros t' n H. rewrite (Hn t' n H). simpl. lia.
    + apply add_job_raise_table in E. subst. exists []. rewrite app_nil_r.
      split; [reflexivity|]. discriminate.
Qed.

Lemma NoDup_snoc {A} (l : list A) (x : A) : NoDup l -> ~ In x l -> NoDup (l ++ [x]).
Proof.
  induction l as [|y l IH]; simpl; intros Hl Hx.
  - constructor; [intros []|constructor].
  - inversion Hl as [|? ? Hy Hl']; subst. constructor.
    + rewrite in_app_iff. intros [H|[H|[]]]; [contradiction|]. subst. auto.
    + apply IH; auto.
Qed.

Lemma query_by_id_app_some (t new : Table) (i : str) :
  query_by_id t i <> None -> query_by_id (t ++ new) i = query_by_id t i.
Proof.
  induction t as [|r t IH]; simpl; [congruence|].
  destruct (str_eqb (id r) i); [reflexivity|]. exact IH.
Qed.

Lemma add_job_nodup (fromisoformat : str -> option Z)
    (commit_fault : Table -> Table -> option Scraper.exn) now jd t :
  NoDup (map id t) -> NoDup (map id (res_table (add_job fromisoformat commit_fault now jd t))).
Proof.
  intros H. destruct (add_job fromisoformat commit_fault now jd t) as [t' b|t' e] eqn:E; simpl.
  - destruct (add_job_ok_cases _ _ _ _ _ _ _ E)
      as [i [_ [[_ [-> _]]|[_ [Hq [row [Hr [-> _]]]]]]]]; [exact H|].
    rewrite map_app. simpl. rewrite Hr. apply NoDup_snoc; [exact H|].
    apply query_by_id_In, Hq.
  - apply add_job_raise_table in E. subst. exact H.
Qed.

Lemma add_jobs_from_nodup (fromisoformat : str -> option Z)
    (commit_fault : Table -> Table -> option Scraper.exn) now jobs a t :
  NoDup (map id t) ->
  NoDup (map id (res_table (add_jobs_from fromisoformat commit_fault now jobs a t))).
Proof.
  revert a t. induction jobs as [|jd jobs IH]; intros a t H; simpl; [exact H|].
  pose proof (add_job_nodup fromisoformat commit_fault now jd t H) as H'.
  destruct (add_job fromisoformat commit_fault now jd t) as [t' [|]|t' e]; simpl in *; auto.
Qed.

Lemma map_id_update_first (job_id : str) (f : JobModel -> JobModel) (t : Table) :
  (forall r, id (f r) = id r) -> map id (update_first job_id f t) = map id t.
Proof.
  intros Hf. induction t as [|r t IH]; simpl; [reflexivity|].
  destruct (str_eqb (id r) job_id); simpl; rewrite ?Hf, ?IH; reflexivity.
Qed.

Lemma query_update_first (job_id j : str) (f : JobModel -> JobModel) (t : Table) :
  (forall r, id (f r) = id r) ->
  query_by_id (update_first job_id f t) j =
  match query_by_id t j with
  | Some r => if str_eqb j job_id then Some (f r) else Some r
  | None => None
  end.
Proof.
  intros Hf. induction t as [|r t IH]; simpl; [reflexivity|].
  destruct (str_eqb (id r) job_id) eqn:E1, (str_eqb (id r) j) eqn:E2; simpl; rewrite ?Hf, ?E1, ?E2.
  - apply StoreClaims.str_eqb_spec in E1, E2. subst. rewrite StoreClaims.str_eqb_refl. reflexivity.
  - destruct (query_by_id t j) eqn:Eq; [|reflexivity].
    destruct (str_eqb j job_id) eqn:E3; [|reflexivity].
    apply StoreClaims.str_eqb_spec in E1, E3. subst. rewrite StoreClaims.str_eqb_refl in E2.
    discriminate.
  - apply StoreClaims.str_eqb_spec in E2. subst. rewrite E1. reflexivity.
  - exact IH.
Qed.

(** A missing or [None] [scraped_at] is stored as the current time. *)
Lemma add_job_scraped_default (fromisoformat : str -> option Z)
    (commit_fault : Table -> Table -> option Scraper.exn) now jd t t' :
  add_job fromisoformat commit_fault now jd t = SOk t' true ->
  (jd_scraped_at jd = None \/ jd_scraped_at jd = Some DNone) ->
  exists row, t' = t ++ [row] /\ scraped_at row = Some now.
Proof.
  intros H Hs. unfold add_job in H.
  destruct (jd_id jd) as [i|]; [|discriminate].
  destruct (query_by_id t i); [discriminate|].
  destruct (jd_title jd); [|discriminate]. destruct (jd_company jd); [|discriminate].
  match type of H with
  | match ?c with _ => _ end = _ => destruct c
  end; [discriminate|].
  injection H as <-. eexists; split; [reflexivity|]. cbn [scraped_at].
  destruct Hs as [-> | ->]; reflexivity.
Qed.

(** X1: inserting and looking up.  When [add_job] reports an insert, the
    new row comes last, is found by [get_job_by_id], carries the dict's
    title and company, is unnotified and without resume, and the stats gain
    one row and one pending job; a [scraped_at] that is missing or [None]
    is stored as the current time.  When it reports a duplicate, the table
    is unchanged and the id was already present. *)
Theorem add_job_lookup (fromisoformat : str -> option Z)
    (commit_fault : Table -> Table -> option Scraper.exn) :
  (forall now jd t t', add_job fromisoformat commit_fault now jd t = SOk t' true ->
     exists i row, jd_id jd = Some i /\ job_exists t i = false /\ t' = t ++ [row] /\
       get_job_by_id t' i = Some row /\ job_exists t' i = true /\
       jd_title jd = Some (title row) /\ jd_company jd = Some (company row) /\
       notified row = false /\ resume_generated row = false /\ resume_path row = None /\
       total_jobs (get_stats t') = S (total_jobs (get_stats t)) /\
       pending (get_stats t') = S (pending (get_stats t)) /\
       notified_count (get_stats t') = notified_count (get_stats t) /\
       resumes_generated (get_stats t') = resumes_generated (get_stats t) /\
       ((jd_scraped_at jd = None \/ jd_scraped_at jd = Some DNone) ->
        scraped_at row = Some now)) /\
  (forall now jd t t', add_job fromisoformat commit_fault now jd t = SOk t' false ->
     t' = t /\ exists i, jd_id jd = Some i /\ job_exists t i = true).
Proof.
  split.
  - intros now jd t t' H.
    destruct (add_job_ok_cases _ _ _ _ _ _ _ H)
      as [i [Hi [[? _]|[_ [Hq [row [Hr [-> [Ht [Hc [Hn [Hg Hp]]]]]]]]]]]]; [discriminate|].
    exists i, row. unfold job_exists, get_job_by_id.
    rewrite (query_by_id_app_none t row i Hq Hr), Hq.
    do 10 (split; [assumption || reflexivity|]).
    split; [|split; [|split; [|split]]];
      [unfold get_stats; simpl; rewrite ?count_app_one, ?length_app, ?Hn, ?Hg; simpl; lia ..|].
    intros Hs. destruct (add_job_scraped_default _ _ _ _ _ _ H Hs) as [row' [E Hr']].
    apply app_inj_tail in E as [_ ->]. exact Hr'.
  - intros now jd t t' H.
    destruct (add_job_ok_cases _ _ _ _ _ _ _ H)
      as [i [Hi [[_ [-> Hq]]|[? _]]]]; [|discriminate].
    split; [reflexivity|]. exists i. split; [exact Hi|]. unfold job_exists.
    destruct (query_by_id t i); congruence.
Qed.

(** X2: the store never duplicates an id.  If the ids of the table are
    distinct before [add_job], [add_jobs], [mark_as_notified] or
    [mark_resume_generated], they are distinct afterwards, whether the call
    returns or raises. *)
Theorem store_keeps_ids_unique (fromisoformat : str -> option Z)
    (commit_fault : Table -> Table -> option Scraper.exn) :
  (forall now jd t, NoDup (map id t) ->
     NoDup (map id (res_table (add_job fromisoformat commit_fault now jd t)))) /\
  (forall now jobs t, NoDup (map id t) ->
     NoDup (map id (res_table (add_jobs fromisoformat commit_fault now jobs t)))) /\
  (forall now job_ids t, NoDup (map id t) ->
     NoDup (map id (res_table (mark_as_notified commit_fault now job_ids t)))) /\
  (forall job_id path t, NoDup (map id t) ->
     NoDup (map id (res_table (mark_resume_generated commit_fault job_id path t)))).
Proof.
  split; [|split; [|split]].
  - apply add_job_nodup.
  - intros now jobs t. apply add_jobs_from_nodup.
  - intros now job_ids t H. unfold mark_as_notified.
    destruct (commit_fault _ _); simpl; [exact H|].
    rewrite map_map. erewrite map_ext; [exact H|].
    intros r. destruct (existsb _ _); reflexivity.
  - intros job_id path t H. unfold mark_resume_generated.
    destruct (query_by_id t job_id); [|exact H].
    destruct (commit_fault _ _); simpl; [exact H|].
    rewrite map_id_update_first; [exact H|reflexivity].
Qed.

Lemma add_jobs_from_inserts (fromisoformat : str -> option Z)
    (commit_fault : Table -> Table -> option Scraper.exn)
    (Hcommit : forall a b, commit_fault a b = None) now jobs :
  Forall (fun jd => jd_id jd <> None /\ jd_title jd <> None /\ jd_company jd <> None) jobs ->
  forall a t, exists new,
    add_jobs_from fromisoformat commit_fault now jobs a t = SOk (t ++ new) (a + List.length new)%nat /\
    (forall jd i, In jd jobs -> jd_id jd = Some i -> job_exists (t ++ new) i = true) /\
    Forall (fun r => exists jd, In jd jobs /\ jd_id jd = Some (id r)) new.
Proof.
  induction 1 as [|jd jobs [Hi [Ht Hc]] Hrest IH]; intros a t.
  - exists []. rewrite app_nil_r, Nat.add_0_r. split; [reflexivity|].
    split; [intros _ _ []|constructor].
  - destruct (jd_id jd) as [i|] eqn:Ei; [|congruence].
    destruct (jd_title jd) as [ti|] eqn:Eti; [|congruence].
    destruct (jd_company jd) as [co|] eqn:Eco; [|congruence].
    simpl. destruct (query_by_id t i) as [r0|] eqn:Eq.
    + rewrite (StoreClaims.add_job_existing fromisoformat commit_fault now jd t i Ei) by congruence.
      destruct (IH a t) as [new [H1 [H2 H3]]]. exists new. split; [exact H1|]. split.
      * intros jd' i' [<-|Hin] Hi'; [|exact (H2 jd' i' Hin Hi')].
        rewrite Ei in Hi'. injection Hi' as <-. unfold job_exists.
        rewrite query_by_id_app_some, Eq; congruence.
      * eapply Forall_impl; [|exact H3]. intros r [jd' [Hin Hr]]. exists jd'. auto.
    + destruct (StoreClaims.add_job_new fromisoformat commit_fault now jd t i ti co Ei Eq Eti Eco)
        as [row [Hr [_ [_ Hadd]]]].
      rewrite Hcommit in Hadd. rewrite Hadd.
      destruct (IH (S a) (t ++ [row])) as [new [H1 [H2 H3]]].
      exists (row :: new). rewrite <- app_assoc in H1, H2. simpl in *.
      rewrite H1, Nat.add_succ_r. split; [reflexivity|]. split.
      * intros jd' i' [<-|Hin] Hi'; [|exact (H2 jd' i' Hin Hi')].
        rewrite Ei in Hi'. injection Hi' as <-. unfold job_exists.
        replace (t ++ row :: new) with ((t ++ [row]) ++ new) by (rewrite <- app_assoc; reflexivity).
        rewrite query_by_id_app_some; rewrite (query_by_id_app_none t row i Eq Hr); congruence.
      * constructor.
        -- exists jd. split; [left; reflexivity|]. rewrite Hr. exact Ei.
        -- eapply Forall_impl; [|exact H3]. intros r [jd' [Hin Hr']]. exists jd'. auto.
Qed.

(** X3: when every dict has an id, a title and a company and the commits
    go through, [add_jobs] appends rows and returns how many: every dict's
    id is then in the table, each new row comes from one of the dicts, and
    the ids stay distinct (so a batch repeating an id adds it once). *)
Theorem add_jobs_inserts_each (fromisoformat : str -> option Z)
    (commit_fault : Table -> Table -> option Scraper.exn)
    (Hcommit : forall a b, commit_fault a b = None) (now : Z) (jobs : list JobData) (t : Table)
    (Hkeys : Forall (fun jd => jd_id jd <> None /\ jd_title jd <> None /\ jd_company jd <> None) jobs) :
  exists new,
    add_jobs fromisoformat commit_fault now jobs t = SOk (t ++ new) (List.length new) /\
    (forall jd i, In jd jobs -> jd_id jd = Some i -> job_exists (t ++ new) i = true) /\
    Forall (fun r => exists jd, In jd jobs /\ jd_id jd = Some (id r)) new /\
    (NoDup (map id t) -> NoDup (map id (t ++ new))).
Proof.
  destruct (add_jobs_from_inserts fromisoformat commit_fault Hcommit now jobs Hkeys O t)
    as [new [H1 [H2 H3]]].
  exists new. unfold add_jobs. rewrite H1. split; [reflexivity|]. split; [exact H2|].
  split; [exact H3|]. intros H.
  pose proof (add_jobs_from_nodup fromisoformat commit_fault now jobs O t H) as H'.
  rewrite H1 in H'. exact H'.
Qed.

Definition batch_dict (i : string) : JobData :=
  mkJobData (Some (u i)) (Some (u "Data Engineer")) (Some (u "Acme")) None None None
            None None None None None None.

(** A use of X3 on a batch that repeats an id. *)
Lemma add_jobs_inserts_each_witness :
  Forall (fun jd => jd_id jd <> None /\ jd_title jd <> None /\ jd_company jd <> None)
    [batch_dict "a"; batch_dict "b"; batch_dict "a"] /\
  exists new, add_jobs (fun _ => None) (fun _ _ => None) 0
                [batch_dict "a"; batch_dict "b"; batch_dict "a"] [] = SOk new (List.length new).
Proof.
  split; [repeat constructor; discriminate|].
  destruct (add_jobs_inserts_each (fun _ => None) (fun _ _ => None) (fun _ _ => eq_refl) 0
              [batch_dict "a"; batch_dict "b"; batch_dict "a"] []
              ltac:(repeat constructor; discriminate)) as [new [H _]].
  exists new. exact H.
Defined.

(** X4: [add_jobs] is not atomic as a batch.  When the dicts before [jd]
    were added and [add_job jd] then raises, [add_jobs] raises the same
    exception with the earlier rows committed; and whenever [add_jobs]
    raises, the table only has rows appended to the one before the call. *)
Theorem add_jobs_partial_commit (fromisoformat : str -> option Z)
    (commit_fault : Table -> Table -> option Scraper.exn) :
  (forall now jobs1 jd jobs2 t t1 n t' e,
     add_jobs fromisoformat commit_fault now jobs1 t = SOk t1 n ->
     add_job fromisoformat commit_fault now jd t1 = SRaise t' e ->
     add_jobs fromisoformat commit_fault now (jobs1 ++ jd :: jobs2) t = SRaise t1 e /\
     exists new, t1 = t ++ new /\ List.length new = n) /\
  (forall now jobs t t' e, add_jobs fromisoformat commit_fault now jobs t = SRaise t' e ->
     exists new, t' = t ++ new).
Proof.
  split.
  - intros now jobs1 jd jobs2 t t1 n t' e H1 H2.
    pose proof (add_job_raise_table _ _ _ _ _ _ _ H2) as ->.
    unfold add_jobs in *. rewrite add_jobs_from_app, H1. simpl. rewrite H2. split; [reflexivity|].
    destruct (add_jobs_from_extends fromisoformat commit_fault now jobs1 O t) as [new [Ht Hn]].
    rewrite H1 in Ht. simpl in Ht. exists new. split; [exact Ht|].
    rewrite (Hn t1 n H1). reflexivity.
  - intros now jobs t t' e H.
    destruct (add_jobs_from_extends fromisoformat commit_fault now jobs O t) as [new [Ht _]].
    unfold add_jobs in H. rewrite H in Ht. exists new. exact Ht.
Qed.

(** X5: the stats agree with each other and with the queries: notified and
    pending rows make up the total, the EU, UAE and resume counts are at
    most the total, [get_eu_jobs()], [get_uae_jobs()] and
    [get_unnotified_jobs()] return as many rows as the matching counts, and
    the [unnotified_only] variants return the unnotified rows that are EU
    (resp. UAE), in table order. *)
Theorem get_stats_consistent (t : Table) :
  let s := get_stats t in
  (notified_count s + pending s = total_jobs s)%nat /\
  (eu_jobs s <= total_jobs s)%nat /\ (uae_jobs s <= total_jobs s)%nat /\
  (resumes_generated s <= total_jobs s)%nat /\
  List.length (get_eu_jobs t false) = eu_jobs s /\
  List.length (get_uae_jobs t false) = uae_jobs s /\
  List.length (get_unnotified_jobs t) = pending s /\
  get_eu_jobs t true = List.filter (fun r => is_eu r) (get_unnotified_jobs t) /\
  get_uae_jobs t true = List.filter (fun r => is_uae r) (get_unnotified_jobs t).
Proof.
  cbv zeta. unfold get_stats, get_eu_jobs, get_uae_jobs, get_unnotified_jobs, count. simpl.
  induction t as [|r t IH]; [simpl; repeat split; lia|].
  destruct IH as [H1 [H2 [H3 [H4 [_ [_ [_ [H8 H9]]]]]]]].
  simpl.
  destruct (is_eu r) eqn:E1, (is_uae r) eqn:E2, (notified r) eqn:E3, (resume_generated r) eqn:E4;
    simpl; rewrite ?E1, ?E2, ?E3, ?E4; simpl; rewrite ?H8, ?H9; repeat split; lia.
Qed.

Lemma count_update_first (p : JobModel -> bool) (job_id : str) (f : JobModel -> JobModel)
    (t : Table) (r : JobModel) :
  query_by_id t job_id = Some r ->
  (count p (update_first job_id f t) + (if p r then 1 else 0) =
   count p t + (if p (f r) then 1 else 0))%nat.
Proof.
  unfold count. induction t as [|x t IH]; simpl; [discriminate|].
  destruct (str_eqb (id x) job_id) eqn:E.
  - intros H. injection H as ->. simpl.
    destruct (p r), (p (f r)); simpl; lia.
  - intros H. simpl. destruct (p x); simpl; rewrite <- IH by exact H; lia.
Qed.

(** The effect of [mark_resume_generated] on a present id, when the commit
    goes through. *)
Lemma mark_resume_generated_ok (commit_fault : Table -> Table -> option Scraper.exn)
    (Hcommit : forall a b, commit_fault a b = None) job_id path t r :
  query_by_id t job_id = Some r ->
  exists t', mark_resume_generated commit_fault job_id path t = SOk t' tt /\
    t' = update_first job_id (set_resume path) t /\
    query_by_id t' job_id = Some (set_resume path r) /\
    (forall j, j <> job_id -> query_by_id t' j = query_by_id t j) /\
    map id t' = map id t.
Proof.
  intros Hq. unfold mark_resume_generated. rewrite Hq, Hcommit.
  eexists. split; [reflexivity|]. split; [reflexivity|].
  split; [|split].
  - rewrite query_update_first by reflexivity. rewrite Hq, StoreClaims.str_eqb_refl. reflexivity.
  - intros j Hj. rewrite query_update_first by reflexivity.
    destruct (query_by_id t j); [|reflexivity].
    rewrite (StoreClaims.str_eqb_neq _ _ Hj). reflexivity.
  - apply map_id_update_first. reflexivity.
Qed.

(** X6: updating and looking up a resume.  With the commit going through,
    [mark_resume_generated(job_id, path)] on a present id makes
    [get_job_by_id(job_id)] return the same row with [resume_generated]
    set and [resume_path = path], leaves every other id's lookup and the
    ids of the table as they were, and raises [resumes_generated] by one
    unless the row already had a resume. *)
Theorem mark_resume_generated_lookup (commit_fault : Table -> Table -> option Scraper.exn)
    (Hcommit : forall a b, commit_fault a b = None) (job_id path : str) (t : Table)
    (r : JobModel) (Hq : get_job_by_id t job_id = Some r) :
  exists t', mark_resume_generated commit_fault job_id path t = SOk t' tt /\
    get_job_by_id t' job_id = Some (set_resume path r) /\
    id (set_resume path r) = id r /\ title (set_resume path r) = title r /\
    notified (set_resume path r) = notified r /\ notified_at (set_resume path r) = notified_at r /\
    resume_generated (set_resume path r) = true /\ resume_path (set_resume path r) = Some path /\
    (forall j, j <> job_id -> get_job_by_id t' j = get_job_by_id t j) /\
    map id t' = map id t /\
    resumes_generated (get_stats t') =
      (resumes_generated (get_stats t) + if resume_generated r then 0 else 1)%nat.
Proof.
  unfold get_job_by_id in *.
  destruct (mark_resume_generated_ok commit_fault Hcommit job_id path t r Hq)
    as [t' [H1 [-> [H2 [H3 H4]]]]].
  exists (update_first job_id (set_resume path) t).
  do 9 (split; [assumption || reflexivity|]). split; [exact H4|].
  simpl. pose proof (count_update_first resume_generated job_id (set_resume path) t r Hq) as Hc.
  simpl in Hc. destruct (resume_generated r); lia.
Qed.

Definition sample_row (i : string) (flag : bool) : JobModel :=
  mkJobModel (u i) (u "Data Engineer") (u "Acme") (u "Dubai, UAE") [] [] None [] []
             false true (Some 0) flag (Some 0) false None.

(** A use of X6. *)
Lemma mark_resume_generated_lookup_witness :
  get_job_by_id [sample_row "a" false; sample_row "b" false] (u "b") = Some (sample_row "b" false) /\
  exists t', mark_resume_generated (fun _ _ => None) (u "b") (u "b.docx")
               [sample_row "a" false; sample_row "b" false] = SOk t' tt /\
             resumes_generated (get_stats t') = 1%nat.
Proof.
  split; [reflexivity|].
  destruct (mark_resume_generated_lookup (fun _ _ => None) (fun _ _ => eq_refl) (u "b") (u "b.docx")
              [sample_row "a" false; sample_row "b" false] (sample_row "b" false) eq_refl)
    as [t' [H1 [_ [_ [_ [_ [_ [_ [_ [_ [_ H]]]]]]]]]]].
  exists t'. split; [exact H1|]. rewrite H. reflexivity.
Defined.

Lemma NoDup_map_inj {A B} (f : A -> B) (l : list A) (x y : A) :
  NoDup (map f l) -> In x l -> In y l -> f x = f y -> x = y.
Proof.
  induction l as [|z l IH]; simpl; [intros _ []|].
  intros H Hx Hy Hf. inversion H as [|? ? Hz Hl]; subst.
  destruct Hx as [<-|Hx], Hy as [<-|Hy]; auto.
  - exfalso. apply Hz. rewrite Hf. apply in_map, Hy.
  - exfalso. apply Hz. rewrite <- Hf. apply in_map, Hx.
Qed.

Lemma existsb_str_eqb (i : str) (l : list str) : existsb (str_eqb i) l = true <-> In i l.
Proof.
  rewrite existsb_exists. split.
  - intros [x [Hx He]]. apply StoreClaims.str_eqb_spec in He. subst. exact Hx.
  - intros H. exists i. split; [exact H|]. apply StoreClaims.str_eqb_refl.
Qed.

Lemma mark_covers (now : Z) (job_ids : list str) (t : Table) :
  (forall r, In r t -> notified r = false -> In (id r) job_ids) ->
  get_unnotified_jobs
    (map (fun r => if existsb (str_eqb (id r)) job_ids then set_notified now r else r) t) = [].
Proof.
  unfold get_unnotified_jobs. induction t as [|r t IH]; intros H; [reflexivity|].
  simpl. destruct (existsb (str_eqb (id r)) job_ids) eqn:E; simpl.
  - apply IH. intros x Hx. apply H. right. exact Hx.
  - destruct (notified r) eqn:En; simpl.
    + apply IH. intros x Hx. apply H. right. exact Hx.
    + exfalso. assert (Hin : In (id r) job_ids) by (apply H; [left; reflexivity|exact En]).
      apply existsb_str_eqb in Hin. congruence.
Qed.

(** X7: notifying every unnotified job, as [main()] does after sending the
    email: [mark_as_notified] with the ids of [get_unnotified_jobs()]
    leaves no unnotified row ([pending = 0]), keeps the ids and the resume
    flags of the table, and, when the ids are distinct, leaves the rows
    that were already notified untouched (their [notified_at] included). *)
Theorem notify_all_unnotified (commit_fault : Table -> Table -> option Scraper.exn)
    (now : Z) (t t' : Table)
    (H : mark_as_notified commit_fault now (map id (get_unnotified_jobs t)) t = SOk t' tt) :
  get_unnotified_jobs t' = [] /\ pending (get_stats t') = 0%nat /\
  map id t' = map id t /\ map resume_generated t' = map resume_generated t /\
  (NoDup (map id t) -> forall r, In r t -> notified r = true -> In r t').
Proof.
  unfold mark_as_notified in H. destruct (commit_fault _ _); [discriminate|].
  injection H as <-.
  assert (Hu := mark_covers now (map id (get_unnotified_jobs t)) t).
  assert (Hu' : get_unnotified_jobs
                  (map (fun r => if existsb (str_eqb (id r)) (map id (get_unnotified_jobs t))
                                 then set_notified now r else r) t) = []).
  { apply Hu. intros r Hr Hn. apply in_map. unfold get_unnotified_jobs.
    apply filter_In. rewrite Hn. auto. }
  split; [exact Hu'|]. split.
  { simpl. unfold count. exact (f_equal (@List.length _) Hu'). }
  split; [|split].
  - rewrite map_map. apply map_ext. intros r. destruct (existsb _ _); reflexivity.
  - rewrite map_map. apply map_ext. intros r. destruct (existsb _ _); reflexivity.
  - intros Hnd r Hr Hn. apply in_map_iff. exists r. split; [|exact Hr].
    destruct (existsb (str_eqb (id r)) (map id (get_unnotified_jobs t))) eqn:E; [|reflexivity].
    exfalso. apply existsb_str_eqb, in_map_iff in E as [r' [Hid Hr']].
    unfold get_unnotified_jobs in Hr'. apply filter_In in Hr' as [Hr' Hn'].
    rewrite (NoDup_map_inj id t r' r Hnd Hr' Hr Hid), Hn in Hn'. discriminate.
Qed.

(** A use of X7 on a table with one notified and one unnotified row. *)
Lemma notify_all_unnotified_witness :
  exists t', mark_as_notified (fun _ _ => None) 5
               (map id (get_unnotified_jobs [sample_row "a" true; sample_row "b" false]))
               [sample_row "a" true; sample_row "b" false] = SOk t' tt /\
             get_unnotified_jobs t' = [].
Proof.
  eexists. split; [reflexivity|].
  exact (proj1 (notify_all_unnotified (fun _ _ => None) 5 [sample_row "a" true; sample_row "b" false]
                  _ eq_refl)).
Defined.

End StoreExtras.

(* ------------------------------------------------------------------ *)
(** ** [main.py]: the store phase of a run *)

Module PipelineExtras.

Import JobStore Pipeline StoreExtras.

Local Open Scope Z_scope.

Lemma NoDup_map_filter {A B} (f : A -> B) (p : A -> bool) (l : list A) :
  NoDup (map f l) -> NoDup (map f (List.filter p l)).
Proof.
  induction l as [|x l IH]; simpl; [auto|].
  intros H. inversion H as [|? ? Hx Hl]; subst.
  destruct (p x); simpl; [|auto]. constructor; [|auto].
  intros Hin. apply Hx. apply in_map_iff in Hin as [y [Hy Hin]].
  apply filter_In in Hin as [Hin _]. rewrite <- Hy. apply in_map, Hin.
Qed.

Lemma query_by_id_In_some (t : Table) (r : JobModel) :
  In r t -> query_by_id t (id r) <> None.
Proof.
  intros Hr Hq. apply query_by_id_In in Hq. apply Hq, in_map, Hr.
Qed.

Lemma mark_resumes_spec (commit_fault : Table -> Table -> option Scraper.exn)
    (Hcommit : forall a b, commit_fault a b = None) (jobs : list JobModel) :
  forall paths i t, NoDup (map id jobs) ->
  (forall j, In j jobs -> query_by_id t (id j) <> None) ->
  exists t', mark_resumes commit_fault jobs paths i t = SOk t' tt /\
    (forall j, ~ In j (map id jobs) -> query_by_id t' j = query_by_id t j) /\
    (forall k job, nth_error jobs k = Some job ->
       match nth_error paths (i + k) with
       | Some p => exists r, query_by_id t' (id job) = Some r /\ resume_path r = Some p /\
                             resume_generated r = true
       | None => query_by_id t' (id job) = query_by_id t (id job)
       end).
Proof.
  induction jobs as [|job rest IH]; intros paths i t Hnd Hpres.
  - exists t. split; [reflexivity|]. split; [reflexivity|]. intros [|k] job H; discriminate.
  - simpl in Hnd. inversion Hnd as [|? ? Hjob Hnd']; subst.
    assert (Hrest : forall j, In j rest -> id j <> id job).
    { intros j Hj E. apply Hjob. rewrite <- E. apply in_map, Hj. }
    simpl. destruct (nth_error paths i) as [p|] eqn:Ep.
    + destruct (query_by_id t (id job)) as [r|] eqn:Eq;
        [|exfalso; exact (Hpres job (or_introl eq_refl) Eq)].
      destruct (mark_resume_generated_ok commit_fault Hcommit (id job) p t r Eq)
        as [t1 [H1 [_ [Hq1 [Hoth _]]]]].
      rewrite H1.
      destruct (IH paths (S i) t1 Hnd') as [t' [Hm [Hun Hk]]].
      { intros j Hj. rewrite Hoth by (apply Hrest, Hj). apply Hpres. right. exact Hj. }
      exists t'. split; [exact Hm|]. split.
      * intros j Hj. simpl in Hj. rewrite Hun by tauto. apply Hoth. intros E. apply Hj. left. auto.
      * intros [|k] job' Hjob'.
        -- simpl in Hjob'. injection Hjob' as <-. rewrite Nat.add_0_r, Ep.
           exists (set_resume p r). rewrite Hun by exact Hjob. repeat split; assumption.
        -- simpl in Hjob'. specialize (Hk k job' Hjob'). rewrite Nat.add_succ_r.
           change (S i + k)%nat with (S (i + k)) in Hk.
           destruct (nth_error paths (S (i + k))); [exact Hk|].
           rewrite Hk. apply Hoth, Hrest. apply nth_error_In with k. exact Hjob'.
    + destruct (IH paths (S i) t Hnd') as [t' [Hm [Hun Hk]]].
      { intros j Hj. apply Hpres. right. exact Hj. }
      exists t'. split; [exact Hm|]. split.
      * intros j Hj. apply Hun. intros Hin. apply Hj. right. exact Hin.
      * intros [|k] job' Hjob'.
        -- simpl in Hjob'. injection Hjob' as <-. rewrite Nat.add_0_r, Ep. apply Hun, Hjob.
        -- simpl in Hjob'. specialize (Hk k job' Hjob'). rewrite Nat.add_succ_r. exact Hk.
Qed.

Lemma collect_paths_nth {J} (process_one : J -> option str) (jobs : list J) :
  (forall j, In j jobs -> process_one j <> None) ->
  forall k job, nth_error jobs k = Some job ->
  nth_error (collect_paths process_one jobs) k = process_one job.
Proof.
  induction jobs as [|j jobs IH]; intros H [|k] job Hk; simpl in *; try discriminate.
  - injection Hk as <-. destruct (process_one j) eqn:E; [reflexivity|].
    exfalso. exact (H j (or_introl eq_refl) E).
  - destruct (process_one j) eqn:E; [|exfalso; exact (H j (or_introl eq_refl) E)].
    simpl. apply IH; auto.
Qed.

(** X8: how [main()] pairs resumes with jobs.  [process_jobs] returns the
    paths of the jobs whose processing succeeded, and the loop gives the
    i-th unnotified job the i-th path.  So when every job succeeds, each
    job's row records its own resume; but when the first job fails and the
    second yields [p1], the first job's row records [p1], the resume made
    for the second job.  Rows of other ids are not touched. *)
Theorem main_resume_pairing (commit_fault : Table -> Table -> option Scraper.exn)
    (Hcommit : forall a b, commit_fault a b = None)
    (process_one : JobModel -> option str) (t : Table) (Hnd : NoDup (map id t)) :
  let jobs_to_process := get_unnotified_jobs t in
  process_jobs true None process_one jobs_to_process = inr (collect_paths process_one jobs_to_process) /\
  exists t', mark_resumes commit_fault jobs_to_process (collect_paths process_one jobs_to_process) O t
               = SOk t' tt /\
    ((forall j, In j jobs_to_process -> process_one j <> None) ->
       forall j p, In j jobs_to_process -> process_one j = Some p ->
       exists r, get_job_by_id t' (id j) = Some r /\ resume_path r = Some p /\
                 resume_generated r = true) /\
    (forall j0 j1 rest p1, jobs_to_process = j0 :: j1 :: rest ->
       process_one j0 = None -> process_one j1 = Some p1 ->
       exists r, get_job_by_id t' (id j0) = Some r /\ resume_path r = Some p1) /\
    (forall j, ~ In j (map id jobs_to_process) -> get_job_by_id t' j = get_job_by_id t j).
Proof.
  cbv zeta. split.
  { destruct (get_unnotified_jobs t); reflexivity. }
  assert (Hnd' : NoDup (map id (get_unnotified_jobs t))) by (apply NoDup_map_filter, Hnd).
  assert (Hpres : forall j, In j (get_unnotified_jobs t) -> query_by_id t (id j) <> None).
  { intros j Hj. apply filter_In in Hj as [Hj _]. apply query_by_id_In_some, Hj. }
  destruct (mark_resumes_spec commit_fault Hcommit (get_unnotified_jobs t)
              (collect_paths process_one (get_unnotified_jobs t)) O t Hnd' Hpres)
    as [t' [Hm [Hun Hk]]].
  exists t'. split; [exact Hm|]. unfold get_job_by_id. split; [|split].
  - intros Hall j p Hj Hp. apply In_nth_error in Hj as [k Hjk].
    specialize (Hk k j Hjk). simpl in Hk.
    rewrite (collect_paths_nth process_one _ Hall k j Hjk), Hp in Hk.
    destruct Hk as [r [H1 [H2 H3]]]. exists r. auto.
  - intros j0 j1 rest p1 E H0 H1. specialize (Hk O j0).
    rewrite E in Hk. simpl in Hk. rewrite H0, H1 in Hk. simpl in Hk.
    destruct (Hk eq_refl) as [r [Hr1 [Hr2 _]]]. exists r. auto.
  - exact Hun.
Qed.

Definition resume_attempt (r : JobModel) : option str :=
  if str_eqb (id r) (u "a") then None else Some (u "b.docx").

(** A use of X8: the resume generated for job [b] is recorded on job [a]. *)
Lemma main_resume_pairing_witness :
  NoDup (map id [sample_row "a" false; sample_row "b" false]) /\
  exists t', mark_resumes (fun _ _ => None) [sample_row "a" false; sample_row "b" false]
               [u "b.docx"] O [sample_row "a" false; sample_row "b" false] = SOk t' tt /\
    exists r, get_job_by_id t' (u "a") = Some r /\ resume_path r = Some (u "b.docx").
Proof.
  assert (Hnd : NoDup (map id [sample_row "a" false; sample_row "b" false])).
  { simpl. constructor; [simpl; intros [H|[]]; discriminate|].
    constructor; [intros []|constructor]. }
  split; [exact Hnd|].
  destruct (main_resume_pairing (fun _ _ => None) (fun _ _ => eq_refl) resume_attempt
              [sample_row "a" false; sample_row "b" false] Hnd) as [_ [t' [Hm [_ [Hb _]]]]].
  exists t'. split; [exact Hm|].
  exact (Hb (sample_row "a" false) (sample_row "b" false) [] (u "b.docx") eq_refl eq_refl eq_refl).
Defined.

(** X9: what [run_scrapers] hands to the store survives it.  Adding
    [job.to_dict()] for a job whose id is new inserts one row holding the
    job's id, title, company, location, description, url, requirements,
    keywords and EU/UAE flags, and its [posted_date] (as a wall-clock
    reading: the column drops the UTC offset of an aware date) and
    [scraped_at] whenever [datetime.fromisoformat] reads back what
    [isoformat] wrote; the row starts unnotified and without resume. *)
Theorem to_dict_add_job (fromisoformat : str -> option Z) (isoformat : Scraper.datetime -> str)
    (commit_fault : Table -> Table -> option Scraper.exn)
    (Hcommit : forall a b, commit_fault a b = None) (now : Z) (j : Scraper.Job) (t : Table)
    (Hnew : job_exists t (Scraper.id j) = false)
    (Hscraped : fromisoformat (isoformat (Scraper.naive (Scraper.scraped_at j))) =
                Some (Scraper.scraped_at j))
    (Hposted : forall d, Scraper.posted_date j = Some d ->
               fromisoformat (isoformat d) = Some (Scraper.dt_wall d)) :
  exists row, add_job fromisoformat commit_fault now (to_dict isoformat j) t = SOk (t ++ [row]) true /\
    id row = Scraper.id j /\ title row = Scraper.title j /\ company row = Scraper.company j /\
    location row = Scraper.location j /\ description row = Scraper.description j /\
    url row = Scraper.url j /\
    posted_date row = option_map Scraper.dt_wall (Scraper.posted_date j) /\
    requirements row = Scraper.requirements j /\ keywords row = Scraper.keywords j /\
    is_eu row = Scraper.is_eu j /\ is_uae row = Scraper.is_uae j /\
    scraped_at row = Some (Scraper.scraped_at j) /\
    notified row = false /\ resume_generated row = false /\ resume_path row = None.
Proof.
  unfold job_exists in Hnew.
  destruct (query_by_id t (Scraper.id j)) eqn:Eq; [discriminate|].
  unfold add_job, to_dict. simpl. rewrite Eq, Hscraped, Hcommit.
  destruct (Scraper.posted_date j) as [d|] eqn:Ep.
  - rewrite (Hposted d eq_refl). eexists. split; [reflexivity|]. repeat split.
  - eexists. split; [reflexivity|]. repeat split.
Qed.

Definition iso_digits (d : Scraper.datetime) : str := [Z.to_N (Scraper.dt_wall d)].

Definition from_digits (s : str) : option Z :=
  match s with [n] => Some (Z.of_N n) | _ => None end.

Definition sample_job : Scraper.Job :=
  Scraper.mkJob (u "g1") (u "Data Engineer") (u "Google") (u "Berlin, Germany") [] []
                (Some (Scraper.naive 5)) [] [] true false 7.

(** A use of X9. *)
Lemma to_dict_add_job_witness :
  job_exists [] (Scraper.id sample_job) = false /\
  exists row, add_job from_digits (fun _ _ => None) 9 (to_dict iso_digits sample_job) [] = SOk [row] true /\
    posted_date row = Some 5.
Proof.
  split; [reflexivity|].
  destruct (to_dict_add_job from_digits iso_digits (fun _ _ => None) (fun _ _ => eq_refl) 9 sample_job []
              eq_refl eq_refl ltac:(intros d H; injection H as <-; reflexivity))
    as [row [H [_ [_ [_ [_ [_ [_ [Hp _]]]]]]]]].
  exists row. split; [exact H|]. exact Hp.
Defined.

Lemma map_update_first_proj {B} (g : JobModel -> B) (job_id : str) (f : JobModel -> JobModel)
    (t : Table) :
  (forall r, g (f r) = g r) -> map g (update_first job_id f t) = map g t.
Proof.
  intros Hf. induction t as [|r t IH]; simpl; [reflexivity|].
  destruct (str_eqb (id r) job_id); simpl; rewrite ?Hf, ?IH; reflexivity.
Qed.

Lemma mark_resumes_keeps (commit_fault : Table -> Table -> option Scraper.exn)
    (Hcommit : forall a b, commit_fault a b = None) (jobs : list JobModel) :
  forall paths i t, exists t2, mark_resumes commit_fault jobs paths i t = SOk t2 tt /\
    map (fun r => (id r, notified r)) t2 = map (fun r => (id r, notified r)) t.
Proof.
  induction jobs as [|job rest IH]; intros paths i t; simpl.
  - exists t. split; reflexivity.
  - destruct (nth_error paths i) as [p|]; [|apply IH].
    unfold mark_resume_generated. destruct (query_by_id t (id job)); [|apply IH].
    rewrite Hcommit.
    destruct (IH paths (S i) (update_first (id job) (set_resume p) t)) as [t2 [H1 H2]].
    exists t2. split; [exact H1|]. rewrite H2. apply map_update_first_proj. reflexivity.
Qed.

Lemma job_exists_ids (t : Table) (i : str) :
  job_exists t i = existsb (fun x => str_eqb x i) (map id t).
Proof.
  unfold job_exists. induction t as [|r t IH]; simpl; [reflexivity|].
  destruct (str_eqb (id r) i); [reflexivity|]. exact IH.
Qed.

(** X10: a run that finds jobs and sends the email leaves nothing pending.
    When every scraped dict has an id, a title and a company, the commits
    go through and the resume parser does not raise, the store phase of
    [main()] with the email sent ends with no unnotified row, with every
    scraped id in the table, and with the ids still distinct if they were;
    this holds with or without [--no-resume] and whatever happens to each
    resume. *)
Theorem run_notifies_all (fromisoformat : str -> option Z)
    (commit_fault : Table -> Table -> option Scraper.exn)
    (Hcommit : forall a b, commit_fault a b = None) (now : Z) (jobs : list JobData)
    (Hne : jobs <> [])
    (Hkeys : Forall (fun jd => jd_id jd <> None /\ jd_title jd <> None /\ jd_company jd <> None) jobs)
    (no_resume resume_found : bool) (process_one : JobModel -> option str) (t : Table) :
  exists t', store_phase fromisoformat commit_fault now jobs no_resume false resume_found None
               process_one true t = SOk t' tt /\
    get_unnotified_jobs t' = [] /\
    (forall jd i, In jd jobs -> jd_id jd = Some i -> job_exists t' i = true) /\
    (NoDup (map id t) -> NoDup (map id t')).
Proof.
  destruct (add_jobs_from_inserts fromisoformat commit_fault Hcommit now jobs Hkeys O t)
    as [new [Hadd [Hex _]]].
  pose proof (add_jobs_from_nodup fromisoformat commit_fault now jobs O t) as Hnd.
  rewrite Hadd in Hnd. simpl in Hnd.
  set (t1 := t ++ new) in *.
  unfold store_phase. destruct jobs as [|jd0 jobs']; [contradiction|].
  unfold add_jobs. rewrite Hadd. cbv zeta.
  destruct (get_unnotified_jobs t1) as [|r U] eqn:EU.
  - exists t1. split; [reflexivity|]. split; [exact EU|]. split; [exact Hex|exact Hnd].
  - match goal with
    | |- exists t', match ?X with _ => _ end = _ /\ _ =>
        assert (Hres : exists t2, X = SOk t2 tt /\
                  map (fun r => (id r, notified r)) t2 = map (fun r => (id r, notified r)) t1)
    end.
    { destruct no_resume; [exists t1; split; reflexivity|].
      unfold process_jobs. lazy beta iota.
      destruct resume_found; lazy beta iota; apply mark_resumes_keeps, Hcommit. }
    destruct Hres as [t2 [Hr Hpair]].
    assert (Hids : map id t2 = map id t1).
    { replace (map id t2) with (map fst (map (fun r => (id r, notified r)) t2))
        by (rewrite map_map; reflexivity).
      rewrite Hpair, map_map. reflexivity. }
    rewrite Hr. unfold mark_as_notified. rewrite Hcommit.
    eexists. split; [reflexivity|]. split; [|split].
    + apply mark_covers. intros x Hx Hn. rewrite <- EU.
      assert (Hin : In (id x, false) (map (fun r => (id r, notified r)) t1)).
      { rewrite <- Hpair, <- Hn. apply in_map with (f := fun r => (id r, notified r)), Hx. }
      apply in_map_iff in Hin as [y [Hy Hyin]]. injection Hy as Hy1 Hy2.
      rewrite <- Hy1. apply in_map. unfold get_unnotified_jobs. apply filter_In.
      rewrite Hy2. auto.
    + intros jd i Hjd Hi. rewrite job_exists_ids, map_map.
      erewrite map_ext with (g := id); [rewrite Hids, <- job_exists_ids; exact (Hex jd i Hjd Hi)|].
      intros x. destruct (existsb _ _); reflexivity.
    + intros H. rewrite map_map.
      erewrite map_ext with (g := id); [rewrite Hids; exact (Hnd H)|].
      intros x. destruct (existsb _ _); reflexivity.
Qed.

(** A use of X10 on an empty store. *)
Lemma run_notifies_all_witness :
  [batch_dict "a"; batch_dict "b"] <> [] /\
  exists t', store_phase (fun _ => None) (fun _ _ => None) 0 [batch_dict "a"; batch_dict "b"]
               false false true None resume_attempt true [] = SOk t' tt /\
             get_unnotified_jobs t' = [].
Proof.
  split; [discriminate|].
  destruct (run_notifies_all (fun _ => None) (fun _ _ => None) (fun _ _ => eq_refl) 0
              [batch_dict "a"; batch_dict "b"] ltac:(discriminate)
              ltac:(repeat constructor; discriminate) false true resume_attempt [])
    as [t' [H1 [H2 _]]].
  exists t'. split; [exact H1|exact H2].
Defined.

End PipelineExtras.

(* ------------------------------------------------------------------ *)
(** ** The relative-date parsers and the location helpers *)

Module ParseExtras.

Import DateParse.

Local Open Scope Z_scope.

Lemma digits_value_nonneg (s : str) : 0 <= digits_value s.
Proof.
  unfold digits_value.
  assert (H : forall acc, 0 <= acc ->
            0 <= fold_left (fun acc d => acc * 10 + digit_value d) s acc).
  { induction s as [|d s IH]; intros acc Hacc; simpl; [exact Hacc|].
    apply IH. assert (0 <= digit_value d).
    { unfold digit_value. destruct (digit_zero d) as [z|]; [apply N2Z.is_nonneg|lia]. }
    lia. }
  apply H. lia.
Qed.

Lemma dt_sub_range (now d x : Z) : 0 <= d -> dt_sub now d = Some x -> 0 <= x <= now.
Proof.
  unfold dt_sub. intros Hd H. destruct (now - d <? 0) eqn:E; [discriminate|].
  injection H as <-. apply Z.ltb_ge in E. lia.
Qed.

(** X11: the relative-date parsers never date a posting in the future (or
    before [datetime.min]): whatever the text, a date returned by
    LinkedIn's [_parse_relative_date] or Google's [_parse_date] lies
    between [datetime.min] and [now]. *)
Theorem relative_dates_not_future :
  (forall now s d, 0 <= now -> linkedin_parse_relative_date now s = Some d -> 0 <= d <= now) /\
  (forall now s d, 0 <= now -> google_parse_date now s = Some d -> 0 <= d <= now).
Proof.
  split.
  - intros now s d Hnow H. unfold linkedin_parse_relative_date in H.
    destruct (_ || _); [injection H as <-; lia|].
    destruct (search _ _) as [[g1 unit]|]; [|discriminate].
    repeat match type of H with
           | (if ?b then _ else _) = _ => destruct b
           end; try discriminate;
      (eapply dt_sub_range; [|exact H];
       pose proof (digits_value_nonneg g1); unfold HOUR, WEEK, DAY, Scraper.DAY; nia).
  - intros now s d Hnow H. unfold google_parse_date in H.
    destruct (_ || _); [injection H as <-; lia|].
    destruct (contains _ _).
    { eapply dt_sub_range; [|exact H]. unfold DAY, Scraper.DAY. lia. }
    destruct (search _ _) as [[g1 unit]|]; [|discriminate].
    repeat match type of H with
           | (if ?b then _ else _) = _ => destruct b
           end; try discriminate;
      (eapply dt_sub_range; [|exact H];
       pose proof (digits_value_nonneg g1); unfold HOUR, WEEK, DAY, Scraper.DAY; nia).
Qed.

End ParseExtras.

Module LocationExtras.

Import Helpers ClassifierFacts.

Lemma split_aux_blank (s : str) :
  forallb py_isspace s = true -> split_aux s [] = [].
Proof.
  induction s as [|c s IH]; simpl; [reflexivity|].
  intros H. apply andb_true_iff in H as [Hc Hs]. rewrite Hc. apply IH, Hs.
Qed.

(** X12: a location that is empty or only whitespace normalizes to the
    empty string, which is classified neither EU nor UAE. *)
Theorem normalize_blank_location (location : str) (Hblank : forallb py_isspace location = true) :
  normalize_location location = [] /\
  is_eu_location (normalize_location location) = false /\
  is_uae_location (normalize_location location) = false.
Proof.
  assert (H : normalize_location location = []).
  { unfold normalize_location. destruct location as [|c s]; [reflexivity|].
    unfold py_split. rewrite split_aux_blank by exact Hblank. reflexivity. }
  rewrite H. split; [reflexivity|]. split; reflexivity.
Qed.

(** A use of X12 on a tab and two spaces. *)
Lemma normalize_blank_location_witness :
  forallb py_isspace [9%N; 32%N; 32%N] = true /\ normalize_location [9%N; 32%N; 32%N] = [].
Proof.
  split; [reflexivity|]. exact (proj1 (normalize_blank_location [9%N; 32%N; 32%N] eq_refl)).
Defined.

(** Substrings as decompositions. *)
Lemma starts_with_iff (p s : str) : starts_with p s = true <-> exists b, s = p ++ b.
Proof.
  revert s. induction p as [|c p IH]; intros s; simpl.
  - split; [intros _; exists s; reflexivity | reflexivity].
  - destruct s as [|d s].
    + split; [discriminate | intros [b Hb]; discriminate].
    + rewrite andb_true_iff, N.eqb_eq, IH. split.
      * intros [-> [b ->]]. exists b. reflexivity.
      * intros [b Hb]. injection Hb as -> ->. split; [reflexivity|exists b; reflexivity].
Qed.

Lemma contains_iff (x s : str) : contains x s = true <-> exists a b, s = a ++ x ++ b.
Proof.
  induction s as [|d s IH]; simpl.
  - rewrite orb_false_r, starts_with_iff. split.
    + intros [b Hb]. exists [], b. exact Hb.
    + intros [a [b H]]. destruct a; [|discriminate]. exists b. exact H.
  - rewrite orb_true_iff, starts_with_iff, IH. split.
    + intros [[b Hb]|[a [b Hb]]].
      * exists [], b. exact Hb.
      * exists (d :: a), b. rewrite Hb. reflexivity.
    + intros [a [b H]]. destruct a as [|e a].
      * left. exists b. exact H.
      * right. injection H as -> H. exists a, b. exact H.
Qed.

Lemma starts_with_app_cases (p x b : str) :
  starts_with p (x ++ b) = true -> starts_with p x = true \/ starts_with x p = true.
Proof.
  revert x. induction p as [|c p IH]; intros x H; [left; reflexivity|].
  destruct x as [|d x]; [right; reflexivity|].
  simpl in H. apply andb_true_iff in H as [Hcd H]. apply N.eqb_eq in Hcd. subst d.
  simpl. rewrite N.eqb_refl. simpl. apply IH. exact H.
Qed.

Lemma starts_with_app_skip (p a y : str) :
  starts_with p (a ++ y) = true -> List.length a <= List.length p ->
  starts_with (skipn (List.length a) p) y = true.
Proof.
  revert p. induction a as [|c a IH]; intros p H Hl; [exact H|].
  destruct p as [|d p]; simpl in Hl; [lia|].
  simpl in H. apply andb_true_iff in H as [_ H]. simpl. apply IH; [exact H|lia].
Qed.

Lemma skipn_app_le {A} (n : nat) (l1 l2 : list A) :
  n <= List.length l1 -> skipn n (l1 ++ l2) = skipn n l1 ++ l2.
Proof.
  intros H. rewrite skipn_app. replace (n - List.length l1) with 0 by lia. reflexivity.
Qed.

(** [old] matches at no position of [x] (also running past its end). *)
Fixpoint no_match_inside (old x : str) : bool :=
  match x with
  | [] => true
  | _ :: x' => negb (starts_with old x) && negb (starts_with x old) && no_match_inside old x'
  end.

(** A match of [old] that starts before [x] cannot reach into [x]. *)
Definition no_tail_overlap (old x : str) : bool :=
  forallb (fun k => negb (starts_with (skipn k old) x) && negb (starts_with x (skipn k old)))
          (seq 1 (List.length old - 1)).

Definition survives (old x : str) : bool :=
  negb (match old with [] => true | _ => false end) && no_match_inside old x && no_tail_overlap old x.

Lemma no_match_inside_cons (old : str) (c : char) (x : str) :
  no_match_inside old (c :: x) =
  negb (starts_with old (c :: x)) && negb (starts_with (c :: x) old) && no_match_inside old x.
Proof. reflexivity. Qed.

Lemma replace_skip_inside (old new x b : str) (f : nat) :
  no_match_inside old x = true -> List.length (x ++ b) < f ->
  exists f', replace_fuel f old new (x ++ b) = x ++ replace_fuel f' old new b /\
             List.length b < f'.
Proof.
  revert f. induction x as [|c x IH]; intros f Hx Hf.
  - exists f. split; [reflexivity|exact Hf].
  - destruct f as [|f]; [simpl in Hf; lia|].
    rewrite no_match_inside_cons in Hx.
    apply andb_true_iff in Hx as [Hx Hrest]. apply andb_true_iff in Hx as [H1 H2].
    assert (Hs : starts_with old ((c :: x) ++ b) = false).
    { destruct (starts_with old ((c :: x) ++ b)) eqn:E; [|reflexivity].
      apply starts_with_app_cases in E as [E|E].
      - rewrite E in H1. discriminate.
      - rewrite E in H2. discriminate. }
    simpl in Hs. simpl. rewrite Hs.
    destruct (IH f Hrest) as [f' [Hf' Hlt]]; [simpl in Hf; lia|].
    exists f'. rewrite Hf'. split; [reflexivity|exact Hlt].
Qed.

(** [s.replace(old, new)] keeps every occurrence of [x] that [old] cannot
    overlap. *)
Lemma replace_keeps (old new x : str) :
  survives old x = true ->
  forall n a b f, List.length a <= n -> List.length (a ++ x ++ b) < f ->
  exists a' b', replace_fuel f old new (a ++ x ++ b) = a' ++ x ++ b'.
Proof.
  intros Hsv. unfold survives in Hsv.
  apply andb_true_iff in Hsv as [Hsv Htail]. apply andb_true_iff in Hsv as [Hne Hin].
  assert (Hlen : 1 <= List.length old) by (destruct old; [discriminate|simpl; lia]).
  induction n as [|n IH]; intros a b f Ha Hf.
  - destruct a; [|simpl in Ha; lia].
    destruct (replace_skip_inside old new x b f Hin Hf) as [f' [E _]].
    exists [], (replace_fuel f' old new b). exact E.
  - destruct a as [|c a1].
    + destruct (replace_skip_inside old new x b f Hin Hf) as [f' [E _]].
      exists [], (replace_fuel f' old new b). exact E.
    + destruct f as [|f]; [simpl in Hf; lia|].
      simpl. destruct (starts_with old (c :: a1 ++ x ++ b)) eqn:Hs.
      * destruct (le_lt_dec (List.length old) (List.length (c :: a1))) as [Hle|Hlt].
        -- change (c :: a1 ++ x ++ b) with ((c :: a1) ++ (x ++ b)).
           rewrite (skipn_app_le _ _ _ Hle).
           destruct (IH (skipn (List.length old) (c :: a1)) b f) as [a' [b' E]].
           ++ rewrite length_skipn. cbn [List.length] in Ha |- *. lia.
           ++ rewrite !length_app, length_skipn in *. cbn [List.length] in Hf |- *. lia.
           ++ exists (new ++ a'), b'. rewrite E, app_assoc. reflexivity.
        -- exfalso.
           change (c :: a1 ++ x ++ b) with ((c :: a1) ++ (x ++ b)) in Hs.
           apply starts_with_app_skip in Hs; [|lia].
           apply starts_with_app_cases in Hs.
           unfold no_tail_overlap in Htail. rewrite forallb_forall in Htail.
           specialize (Htail (List.length (c :: a1))).
           assert (Hk : In (List.length (c :: a1)) (seq 1 (List.length old - 1)))
             by (apply in_seq; simpl in Hlt |- *; lia).
           specialize (Htail Hk). apply andb_true_iff in Htail as [T1 T2].
           destruct Hs as [Hs|Hs]; [rewrite Hs in T1|rewrite Hs in T2]; discriminate.
      * destruct (IH a1 b f) as [a' [b' E]]; [simpl in Ha; lia|simpl in Hf; lia|].
        exists (c :: a'), b'. rewrite E. reflexivity.
Qed.

(** [s.replace(old, new)] leaves a copy of [new] when [s] contains [old]. *)
Lemma replace_hits (old new : str) :
  old <> [] -> forall a b f, List.length (a ++ old ++ b) < f ->
  exists a' b', replace_fuel f old new (a ++ old ++ b) = a' ++ new ++ b'.
Proof.
  intros Hne a. induction a as [|c a IH]; intros b f Hf.
  - destruct f as [|f]; [simpl in Hf; lia|].
    destruct old as [|o old']; [congruence|].
    simpl. rewrite N.eqb_refl, starts_with_app. simpl.
    exists [], (replace_fuel f (o :: old') new (skipn (List.length old') (old' ++ b))).
    reflexivity.
  - destruct f as [|f]; [simpl in Hf; lia|].
    simpl. destruct (starts_with old (c :: a ++ old ++ b)).
    + exists [], (replace_fuel f old new (skipn (List.length old) (c :: a ++ old ++ b))).
      reflexivity.
    + destruct (IH b f) as [a' [b' E]]; [simpl in Hf; lia|].
      exists (c :: a'), b'. rewrite E. reflexivity.
Qed.

Lemma fold_keeps (ms : list (str * str)) (x : str) :
  forallb (fun m => survives (fst m) x) ms = true ->
  forall s, (exists a b, s = a ++ x ++ b) ->
  exists a b, fold_left (fun l '(old, new) => py_replace old new l) ms s = a ++ x ++ b.
Proof.
  induction ms as [|[old new] ms IH]; intros Hms s Hs; [exact Hs|].
  simpl in Hms. apply andb_true_iff in Hms as [H1 H2].
  apply IH; [exact H2|].
  destruct Hs as [a [b ->]]. unfold py_replace.
  apply (replace_keeps old new x H1 (List.length a) a b); lia.
Qed.

Lemma fold_hit (pre post : list (str * str)) (old new : str) :
  old <> [] ->
  forallb (fun m => survives (fst m) old) pre = true ->
  forallb (fun m => survives (fst m) new) post = true ->
  forall s, (exists a b, s = a ++ old ++ b) ->
  exists a b, fold_left (fun l '(old, new) => py_replace old new l) (pre ++ (old, new) :: post) s
              = a ++ new ++ b.
Proof.
  intros Hne Hpre Hpost s Hs.
  rewrite fold_left_app.
  destruct (fold_keeps pre old Hpre s Hs) as [a [b E]]. rewrite E.
  apply (fold_keeps post new Hpost).
  unfold py_replace. apply (replace_hits old new Hne a b). lia.
Qed.

(** [" ".join(s.split())] keeps every whitespace-free substring. *)
Lemma split_aux_prefix (p s' cur : str) :
  exists pre cur', split_aux (p ++ s') cur = pre ++ split_aux s' cur'.
Proof.
  revert cur. induction p as [|c p IH]; intros cur.
  - exists [], cur. reflexivity.
  - simpl. destruct (py_isspace c).
    + destruct cur as [|d cur].
      * apply IH.
      * destruct (IH []) as [pre [cur' E]].
        exists (rev (d :: cur) :: pre), cur'. rewrite E. reflexivity.
    + apply IH.
Qed.

Lemma split_aux_word (w q cur : str) :
  forallb (fun c => negb (py_isspace c)) w = true ->
  split_aux (w ++ q) cur = split_aux q (rev w ++ cur).
Proof.
  revert cur. induction w as [|c w IH]; intros cur H; [reflexivity|].
  simpl in H. apply andb_true_iff in H as [Hc H].
  simpl. destruct (py_isspace c) eqn:E; simpl in Hc; [discriminate|].
  rewrite IH by exact H. rewrite <- app_assoc. reflexivity.
Qed.

Lemma split_aux_first (q cur : str) :
  cur <> [] -> exists x rest, split_aux q cur = (rev cur ++ x) :: rest.
Proof.
  revert cur. induction q as [|c q IH]; intros cur Hne; simpl.
  - destruct cur as [|d cur]; [congruence|].
    exists [], []. rewrite app_nil_r. reflexivity.
  - destruct (py_isspace c).
    + destruct cur as [|d cur]; [congruence|].
      exists [], (split_aux q []). rewrite app_nil_r. reflexivity.
    + destruct (IH (c :: cur)) as [x [rest E]]; [discriminate|].
      exists (c :: x), rest. rewrite E. simpl. rewrite <- app_assoc. reflexivity.
Qed.

Lemma join_cons (sep z : str) (l : list str) :
  l <> [] -> join sep (z :: l) = z ++ sep ++ join sep l.
Proof. destruct l; [congruence|reflexivity]. Qed.

Lemma join_mid (sep y : str) (pre rest : list str) :
  exists a b, join sep (pre ++ y :: rest) = a ++ y ++ b.
Proof.
  induction pre as [|z pre IH].
  - destruct rest as [|r rest].
    + exists [], []. simpl. rewrite app_nil_r. reflexivity.
    + exists [], (sep ++ join sep (r :: rest)). reflexivity.
  - destruct IH as [a [b E]]. simpl app.
    rewrite join_cons by (destruct pre; discriminate).
    rewrite E. exists (z ++ sep ++ a), b. rewrite <- !app_assoc. reflexivity.
Qed.

Lemma collapse_keeps (p w q : str) :
  w <> [] -> forallb (fun c => negb (py_isspace c)) w = true ->
  exists a b, join (u " ") (py_split (p ++ w ++ q)) = a ++ w ++ b.
Proof.
  intros Hne Hw. unfold py_split.
  destruct (split_aux_prefix p (w ++ q) []) as [pre [cur E]]. rewrite E.
  rewrite split_aux_word by exact Hw.
  destruct (split_aux_first q (rev w ++ cur)) as [x [rest E2]].
  { intro H. apply app_eq_nil in H as [H _]. destruct w as [|c w]; [congruence|].
    simpl in H. apply app_eq_nil in H as [_ H]. discriminate. }
  rewrite E2, rev_app_distr, rev_involutive.
  destruct (join_mid (u " ") ((rev cur ++ w) ++ x) pre rest) as [a [b E3]].
  exists (a ++ rev cur), (x ++ b). etransitivity; [exact E3|]. rewrite <- !app_assoc. reflexivity.
Qed.

Lemma contains_eu (s v : str) :
  contains v s = true -> is_eu_location v = true -> is_eu_location s = true.
Proof.
  intros Hc Hv. apply contains_iff in Hc as [a [b ->]].
  apply is_eu_location_iff in Hv as [c [Hin Hc]]. apply is_eu_location_iff.
  exists c. split; [exact Hin|].
  apply contains_iff in Hc as [a1 [b1 E]]. apply contains_iff. rewrite !lower_app, E.
  exists (lower a ++ a1), (b1 ++ lower b). rewrite <- !app_assoc. reflexivity.
Qed.

Lemma contains_uae (s v : str) :
  contains v s = true -> is_uae_location v = true -> is_uae_location s = true.
Proof.
  intros Hc Hv. apply contains_iff in Hc as [a [b ->]].
  apply is_uae_location_iff in Hv as [i [Hin Hc]]. apply is_uae_location_iff.
  exists i. split; [exact Hin|].
  apply contains_iff in Hc as [a1 [b1 E]]. apply contains_iff. rewrite !lower_app, E.
  exists (lower a ++ a1), (b1 ++ lower b). rewrite <- !app_assoc. reflexivity.
Qed.

(** Where each key with an EU replacement sits in the table: it has no
    whitespace, no earlier key can break it and no later key can break its
    replacement. *)
Lemma mapping_position (old new : str) :
  In (old, new) mappings -> is_eu_location new = true ->
  exists pre post, mappings = pre ++ (old, new) :: post /\ old <> [] /\
    forallb (fun c => negb (py_isspace c)) old = true /\
    forallb (fun m => survives (fst m) old) pre = true /\
    forallb (fun m => survives (fst m) new) post = true.
Proof.
  intros Hin Hv.
  destruct Hin as [H|[H|[H|[H|[H|[H|[H|[]]]]]]]]; injection H as <- <-;
    [ vm_compute in Hv; discriminate | vm_compute in Hv; discriminate | .. ].
  - exists (firstn 2 mappings), (skipn 3 mappings).
    split; [reflexivity|split; [discriminate|split; [|split]; vm_compute; reflexivity]].
  - exists (firstn 3 mappings), (skipn 4 mappings).
    split; [reflexivity|split; [discriminate|split; [|split]; vm_compute; reflexivity]].
  - exists (firstn 4 mappings), (skipn 5 mappings).
    split; [reflexivity|split; [discriminate|split; [|split]; vm_compute; reflexivity]].
  - exists (firstn 5 mappings), (skipn 6 mappings).
    split; [reflexivity|split; [discriminate|split; [|split]; vm_compute; reflexivity]].
  - exists (firstn 6 mappings), (skipn 7 mappings).
    split; [reflexivity|split; [discriminate|split; [|split]; vm_compute; reflexivity]].
Qed.

(** X13: the native-language country names of the [mappings] table
    ("Deutschland", "España", "Polska", "Nederland", "Éire") are replaced
    wherever they occur in a location: whatever surrounds such a name,
    [normalize_location] returns a string containing its English name, so
    the normalized location is an EU location. *)
Theorem normalize_maps_native_names (old new p q : str)
  (Hin : In (old, new) mappings) (Hv : is_eu_location new = true) :
  contains new (normalize_location (p ++ old ++ q)) = true /\
  is_eu_location (normalize_location (p ++ old ++ q)) = true.
Proof.
  assert (Hc : contains new (normalize_location (p ++ old ++ q)) = true).
  { destruct (mapping_position old new Hin Hv) as [pre [post [Hms [Hne [Hw [Hpre Hpost]]]]]].
    unfold normalize_location.
    destruct (p ++ old ++ q) as [|c0 s0] eqn:Es.
    { destruct old as [|o old']; [congruence|]. destruct p; discriminate. }
    rewrite <- Es. cbv zeta. rewrite Hms. apply contains_iff.
    apply (fold_hit pre post old new Hne Hpre Hpost).
    apply collapse_keeps; assumption. }
  split; [exact Hc | exact (contains_eu _ _ Hc Hv)].
Qed.

(** A use of X13: "Dublin,   Éire (remote)" is an EU location once
    normalized. *)
Lemma normalize_maps_native_names_witness :
  In ([201%N] ++ u "ire", u "Ireland") mappings /\ is_eu_location (u "Ireland") = true /\
  is_eu_location (normalize_location (u "Dublin,   " ++ ([201%N] ++ u "ire") ++ u " (remote)")) = true.
Proof.
  assert (Hin : In ([201%N] ++ u "ire", u "Ireland") mappings).
  { right. right. right. right. right. right. left. reflexivity. }
  assert (Hv : is_eu_location (u "Ireland") = true) by (vm_compute; reflexivity).
  split; [exact Hin|]. split; [exact Hv|].
  exact (proj2 (normalize_maps_native_names _ _ (u "Dublin,   ") (u " (remote)") Hin Hv)).
Defined.

End LocationExtras.
